(** * collab-draw: real-time update propagation

    A shallow embedding of the two halves of the synchronisation core:

    - [Client]: the element merge and the outbound send logic of
      [packages/web/components/projects/Project.tsx] and of its enhanced
      variant [ProjectEnhanced];
    - [Server]: the subscriber registry and the broadcast fan-out of
      [packages/api/graph/resolvers/resolver.go].

    Go maps and ECMAScript [Map]s are finite maps ([gmap]); Go channels and
    the record a broadcast passes by pointer live in explicit stores, so
    that closing, filling and aliasing are visible in the statements. *)

From Stdlib Require Import ZArith Ascii.
From stdpp Require Import base option list gmap strings pretty.

Local Open Scope Z_scope.
#[local] Set Warnings "-clear-no-such-hyp,-level-tolerance".

(** ** Client side: [mergeElements] *)

Module Client.

(** [OrderedExcalidrawElement], restricted to the two fields the code reads;
    everything else the element carries is the opaque [payload]. *)
Record OrderedExcalidrawElement := mkElement {
  id : string;
  version : Z;
  payload : string;
}.

#[global] Instance OrderedExcalidrawElement_eq_dec : EqDecision OrderedExcalidrawElement.
Proof. solve_decision. Defined.

Abbreviation Elements := (list OrderedExcalidrawElement).

(** [new Map(entries)]: entries are inserted left to right, so for a key
    that occurs twice the later entry is the one [get] returns. *)
Definition new_Map (entries : list (string * OrderedExcalidrawElement))
  : gmap string OrderedExcalidrawElement :=
  foldl (λ m kv, <[kv.1 := kv.2]> m) ∅ entries.

(** [xs.map((el) => [el.id, el])] *)
Definition entries (xs : Elements) : list (string * OrderedExcalidrawElement) :=
  (λ el, (id el, el)) <$> xs.

(** [m.has(k)] *)
Definition has (m : gmap string OrderedExcalidrawElement) (k : string) : bool :=
  match m !! k with Some _ => true | None => false end.

(** [merged.push(el)] *)
Definition push (merged : Elements) (el : OrderedExcalidrawElement) : Elements :=
  merged ++ [el].

(** Body of the first loop of [mergeElements], for one [incomingEl]. *)
Definition mergeIncoming
    (currentMap lastSyncedMap : gmap string OrderedExcalidrawElement)
    (merged : Elements) (incomingEl : OrderedExcalidrawElement) : Elements :=
  match currentMap !! id incomingEl, lastSyncedMap !! id incomingEl with
  | Some currentEl, Some lastSyncedEl =>
      if version currentEl >? version lastSyncedEl
      then push merged
             (if version currentEl >=? version incomingEl
              then currentEl else incomingEl)
      else push merged incomingEl
  | _, _ => push merged incomingEl
  end.

(** Body of the second loop of [mergeElements], for one [currentEl]. *)
Definition mergeLocal
    (incomingMap lastSyncedMap : gmap string OrderedExcalidrawElement)
    (merged : Elements) (currentEl : OrderedExcalidrawElement) : Elements :=
  if negb (has incomingMap (id currentEl))
  then match lastSyncedMap !! id currentEl with
       | None => push merged currentEl
       | Some _ => merged
       end
  else merged.

Definition mergeElements (current incoming lastSynced : Elements) : Elements :=
  if (length lastSynced =? 0)%nat then incoming
  else
    let currentMap := new_Map (entries current) in
    let incomingMap := new_Map (entries incoming) in
    let lastSyncedMap := new_Map (entries lastSynced) in
    let merged := [] in
    let merged := foldl (mergeIncoming currentMap lastSyncedMap) merged incoming in
    foldl (mergeLocal incomingMap lastSyncedMap) merged current.

(** [new Map(xs.map((el) => [el.id, el])).get(k)]: the element a snapshot
    holds for the ID [k]. *)
Definition get (xs : Elements) (k : string) : option OrderedExcalidrawElement :=
  new_Map (entries xs) !! k.

(** The choice the first loop makes for one incoming element. *)
Definition pick (current lastSynced : Elements)
    (incomingEl : OrderedExcalidrawElement) : OrderedExcalidrawElement :=
  match get current (id incomingEl), get lastSynced (id incomingEl) with
  | Some currentEl, Some lastSyncedEl =>
      if (version currentEl >? version lastSyncedEl)
         && (version currentEl >=? version incomingEl)
      then currentEl else incomingEl
  | _, _ => incomingEl
  end.

(** A local element is brand new when neither the incoming nor the
    last-synced snapshot knows its ID. *)
Definition brandNew (incoming lastSynced : Elements)
    (el : OrderedExcalidrawElement) : Prop :=
  id el ∉ (id <$> incoming) ∧ id el ∉ (id <$> lastSynced).

#[global] Instance brandNew_dec incoming lastSynced el :
  Decision (brandNew incoming lastSynced el).
Proof. unfold brandNew. apply _. Defined.

(** The ID and version of every element, in order: all that the merge and
    the change detection look at. *)
Definition idVersions (xs : Elements) : list (string * Z) :=
  (λ el, (id el, version el)) <$> xs.

(** Snapshots used in the scenarios. *)
Definition X_v1 := mkElement "X" 1 "remote".
Definition X_v2 := mkElement "X" 2 "local".
Definition X_v3 := mkElement "X" 3 "stale".
Definition X_v5 := mkElement "X" 5 "local".
Definition Y_v1 := mkElement "Y" 1 "remote".

End Client.


Import Client.

(** ** Client side: the outbound send

    Timers are the event loop's pending [setTimeout] entries. A timer
    callback and the continuation after [await mutate(...)] are separate
    steps, since other events may run in between. *)

Module Timers.

Inductive callback :=
  | Throttled (elements : Elements)   (* the callback [sendUpdate] schedules *)
  | Retry (elements : Elements).      (* [() => sendUpdate(elements)] *)

Record timer := mkTimer { handle : nat; delay : Z; run : callback }.

(** Result of the promise [getApolloClient().mutate(...)] returns. *)
Inductive MutateOutcome := Resolved | Rejected (error : string).

(** [if (subscriptionData?.project.socketID)]: [undefined] and the empty
    string are falsy. *)
Definition truthy (socketID : option string) : bool :=
  match socketID with
  | Some s => negb (String.eqb s "")
  | None => false
  end.

Definition clearTimeout (h : nat) (timers : list timer) : list timer :=
  filter (λ t, handle t ≠ h) timers.

End Timers.

Import Timers.

(** [Project.tsx] *)
Module Project.

Record State := mkState {
  lastSyncedElementsRef : Elements;
  pendingUpdateRef : option nat;
  timers : list timer;
  nextHandle : nat;
  mutations : list Elements;   (* snapshots handed to [mutate], oldest first *)
}.

Definition sendUpdate (elements : Elements) (st : State) : State :=
  let timers1 :=
    match pendingUpdateRef st with
    | Some h => clearTimeout h (timers st)
    | None => timers st
    end in
  let h := nextHandle st in
  {| lastSyncedElementsRef := lastSyncedElementsRef st;
     pendingUpdateRef := Some h;
     timers := timers1 ++ [mkTimer h 100 (Throttled elements)];
     nextHandle := S h;
     mutations := mutations st |}.

(** The throttled callback. [mutate] is started and not awaited; the next
    statement already records [elements] as last synced. *)
Definition timerFired (socketID : option string) (elements : Elements)
    (st : State) : State :=
  if truthy socketID then
    {| lastSyncedElementsRef := elements;
       pendingUpdateRef := None;
       timers := timers st;
       nextHandle := nextHandle st;
       mutations := mutations st ++ [elements] |}
  else
    {| lastSyncedElementsRef := lastSyncedElementsRef st;
       pendingUpdateRef := None;
       timers := timers st;
       nextHandle := nextHandle st;
       mutations := mutations st |}.

(** The promise settles: the only handler is [.catch], which logs. *)
Definition mutateSettled (outcome : MutateOutcome) (st : State) : State := st.

(** A client that has synced {X:v1} and has nothing pending. *)
Definition synced : State :=
  {| lastSyncedElementsRef := [X_v1];
     pendingUpdateRef := None;
     timers := [];
     nextHandle := 0;
     mutations := [] |}.

End Project.

(** [ProjectEnhanced.tsx] *)
Module ProjectEnhanced.

Inductive ConnectionStatus := connected | disconnected | syncing.

Record State := mkState {
  lastSyncedElementsRef : Elements;
  pendingUpdateRef : option nat;
  retryCountRef : Z;
  connectionStatus : ConnectionStatus;
  timers : list timer;
  nextHandle : nat;
  mutations : list Elements;
}.

Definition MAX_RETRIES : Z := 3.

Definition getThrottleDelay (elementCount : Z) : Z :=
  if elementCount <? 50 then 100
  else if elementCount <? 200 then 200
  else if elementCount <? 500 then 300
  else 500.

Definition sendUpdate (elements : Elements) (st : State) : State :=
  let timers1 :=
    match pendingUpdateRef st with
    | Some h => clearTimeout h (timers st)
    | None => timers st
    end in
  let delay := getThrottleDelay (Z.of_nat (length elements)) in
  let h := nextHandle st in
  {| lastSyncedElementsRef := lastSyncedElementsRef st;
     pendingUpdateRef := Some h;
     retryCountRef := retryCountRef st;
     connectionStatus := connectionStatus st;
     timers := timers1 ++ [mkTimer h delay (Throttled elements)];
     nextHandle := S h;
     mutations := mutations st |}.

(** The throttled callback up to [await mutate(...)]. Without a socket ID
    it runs to its end and only clears [pendingUpdateRef]. *)
Definition timerFired (socketID : option string) (elements : Elements)
    (st : State) : State :=
  if truthy socketID then
    {| lastSyncedElementsRef := lastSyncedElementsRef st;
       pendingUpdateRef := pendingUpdateRef st;
       retryCountRef := retryCountRef st;
       connectionStatus := syncing;
       timers := timers st;
       nextHandle := nextHandle st;
       mutations := mutations st ++ [elements] |}
  else
    {| lastSyncedElementsRef := lastSyncedElementsRef st;
       pendingUpdateRef := None;
       retryCountRef := retryCountRef st;
       connectionStatus := connectionStatus st;
       timers := timers st;
       nextHandle := nextHandle st;
       mutations := mutations st |}.

(** The rest of the callback, once the awaited promise has settled. *)
Definition mutateSettled (elements : Elements) (outcome : MutateOutcome)
    (st : State) : State :=
  match outcome with
  | Resolved =>
      {| lastSyncedElementsRef := elements;
         pendingUpdateRef := None;
         retryCountRef := 0;
         connectionStatus := connected;
         timers := timers st;
         nextHandle := nextHandle st;
         mutations := mutations st |}
  | Rejected _ =>
      if retryCountRef st <? MAX_RETRIES then
        let retryCount := retryCountRef st + 1 in
        {| lastSyncedElementsRef := lastSyncedElementsRef st;
           pendingUpdateRef := None;
           retryCountRef := retryCount;
           connectionStatus := disconnected;
           timers := timers st
                     ++ [mkTimer (nextHandle st) (1000 * retryCount) (Retry elements)];
           nextHandle := S (nextHandle st);
           mutations := mutations st |}
      else
        {| lastSyncedElementsRef := lastSyncedElementsRef st;
           pendingUpdateRef := None;
           retryCountRef := retryCountRef st;
           connectionStatus := disconnected;
           timers := timers st;
           nextHandle := nextHandle st;
           mutations := mutations st |}
  end.

(** The event loop runs the timer [t]: it leaves the pending list and its
    callback starts. *)
Definition fire (socketID : option string) (t : timer) (st : State) : State :=
  let st1 :=
    {| lastSyncedElementsRef := lastSyncedElementsRef st;
       pendingUpdateRef := pendingUpdateRef st;
       retryCountRef := retryCountRef st;
       connectionStatus := connectionStatus st;
       timers := clearTimeout (handle t) (timers st);
       nextHandle := nextHandle st;
       mutations := mutations st |} in
  match run t with
  | Throttled elements => timerFired socketID elements st1
  | Retry elements => sendUpdate elements st1
  end.

(** The retry the last failure scheduled, if any: it is the newest timer. *)
Definition scheduledRetry (st : State) : option timer :=
  match last (timers st) with
  | Some t => match run t with Retry _ => Some t | Throttled _ => None end
  | None => None
  end.

(** [n] failures in a row, from a state whose newest timer is the throttled
    send of [elements]: the timer fires, the mutation is rejected, and the
    retry this schedules (if any) fires in turn. Returns the final state and
    the delays of the retries, oldest first. *)
Fixpoint failures (n : nat) (socketID : option string) (elements : Elements)
    (error : string) (st : State) : State * list Z :=
  match n with
  | O => (st, [])
  | S n' =>
      match last (timers st) with
      | Some t =>
          let st1 := mutateSettled elements (Rejected error) (fire socketID t st) in
          match scheduledRetry st1 with
          | Some r =>
              let '(st2, ds) :=
                failures n' socketID elements error (fire socketID r st1) in
              (st2, delay r :: ds)
          | None => (st1, [])
          end
      | None => (st, [])
      end
  end.

(** Delays of the retries still to come once [k] have been made. *)
Definition backoff (k : Z) : list Z :=
  (λ i, 1000 * i) <$> seqZ (k + 1) (MAX_RETRIES - k).

Definition initial : State :=
  {| lastSyncedElementsRef := [];
     pendingUpdateRef := None;
     retryCountRef := 0;
     connectionStatus := connected;
     timers := [];
     nextHandle := 0;
     mutations := [] |}.

End ProjectEnhanced.

(** ** Server side: subscriber registry and broadcast *)

Module Server.

(** Heap addresses of channels and of [*model.ProjectSubscription] values. *)
Abbreviation loc := nat.

(** Modelled from the spec: [model.ProjectSubscription] is declared in the
    generated [graph/model] package, which is not among the sources. The
    fields are those of the update record (document ID, serialized element
    snapshot, subscriber token); [SocketID] is the one [resolver.go] writes. *)
Record ProjectSubscription := mkProjectSubscription {
  ID : string;
  Elements : string;
  SocketID : string;
}.

(** A buffered Go channel of pointers. *)
Record chan := mkChan {
  buffer : list loc;
  capacity : nat;
  closed : bool;
}.

Record ProjectSubscriber := mkProjectSubscriber {
  sockedID : string;
  channel : loc;
}.

#[global] Instance ProjectSubscriber_eq_dec : EqDecision ProjectSubscriber.
Proof. solve_decision. Defined.

(** One send the broadcast performed: to whom, which pointer, and what the
    pointed-to record held at that moment. *)
Record delivery := mkDelivery {
  recipient : ProjectSubscriber;
  update : loc;
  carried : ProjectSubscription;
}.

(** The resolver's map together with the part of the heap it refers to.
    [sent] is a history of the sends performed, kept for the statements
    only. *)
Record State := mkState {
  projectSubscribers : gmap string (list ProjectSubscriber);
  chans : gmap loc chan;
  projects : gmap loc ProjectSubscription;
  sent : list delivery;
}.

(** A call either returns or panics; both leave a state behind. *)
Inductive outcome :=
  | Done (σ : State)
  | Panic (σ : State) (reason : string).

Definition andThen (o : outcome) (k : State → outcome) : outcome :=
  match o with
  | Done σ => k σ
  | Panic σ reason => Panic σ reason
  end.

Notation "σ ← o ; k" := (andThen o (λ σ, k))
  (at level 20, o at level 100, k at level 200, only parsing).

Definition NewResolver : State :=
  {| projectSubscribers := ∅; chans := ∅; projects := ∅; sent := [] |}.

(** [r.projectSubscribers[projectID]]: reading a missing key yields the nil
    slice. *)
Definition subscribersOf (σ : State) (projectID : string) : list ProjectSubscriber :=
  default [] (projectSubscribers σ !! projectID).

Definition setSubscribers (projectID : string) (subscribers : list ProjectSubscriber)
    (σ : State) : State :=
  {| projectSubscribers := <[projectID := subscribers]> (projectSubscribers σ);
     chans := chans σ; projects := projects σ; sent := sent σ |}.

Definition deleteSubscribers (projectID : string) (σ : State) : State :=
  {| projectSubscribers := delete projectID (projectSubscribers σ);
     chans := chans σ; projects := projects σ; sent := sent σ |}.

Definition setChan (c : loc) (ch : chan) (σ : State) : State :=
  {| projectSubscribers := projectSubscribers σ;
     chans := <[c := ch]> (chans σ); projects := projects σ; sent := sent σ |}.

(** [rand.IntN(n)] lies in [0, n); [draw] stands for the generator's state. *)
Definition IntN (n : N) (draw : N) : N := (draw mod n)%N.

Definition generateRandom8DigitString (draw : N) : string :=
  let minN := 10000000%N in
  let maxNum := 90000000%N in
  let randomNumber := (IntN maxNum draw + minN)%N in
  pretty randomNumber.

Definition subscribeToProject (projectID : string) (ch : loc) (draw : N)
    (σ : State) : State * string :=
  let subscriber :=
    {| channel := ch; sockedID := generateRandom8DigitString draw |} in
  (setSubscribers projectID (subscribersOf σ projectID ++ [subscriber]) σ,
   sockedID subscriber).

(** [close(c)] *)
Definition close (c : loc) (σ : State) : outcome :=
  match chans σ !! c with
  | None => Panic σ "close of nil channel"
  | Some ch =>
      if closed ch then Panic σ "close of closed channel"
      else Done (setChan c {| buffer := buffer ch; capacity := capacity ch;
                              closed := true |} σ)
  end.

(** The first subscriber whose token is [socketID], with its index. *)
Fixpoint findSubscriber (socketID : string) (subscribers : list ProjectSubscriber)
    (i : nat) : option (nat * ProjectSubscriber) :=
  match subscribers with
  | [] => None
  | subscriber :: rest =>
      if decide (sockedID subscriber = socketID) then Some (i, subscriber)
      else findSubscriber socketID rest (S i)
  end.

Definition unsubscribeFromProject (projectID socketID : string) (σ : State)
  : outcome :=
  let subscribers := subscribersOf σ projectID in
  σ ← match findSubscriber socketID subscribers 0 with
      | Some (i, subscriber) =>
          close (channel subscriber)
            (setSubscribers projectID
               (take i subscribers ++ drop (S i) subscribers) σ)
      | None => Done σ
      end;
  if (length (subscribersOf σ projectID) =? 0)%nat
  then Done (deleteSubscribers projectID σ)
  else Done σ.

(** [select { case c <- v: default: }] on the channel itself. A send to a
    closed channel is ready and panics; otherwise the send case runs when
    the buffer has room, and the default case when it has not. A receiver
    parked on an empty buffered channel is the same as room in the buffer,
    so receivers need no state of their own here. *)
Inductive selected :=
  | SendCase (ch' : chan)
  | DefaultCase
  | SendOnClosed.

Definition selectSend (v : loc) (ch : chan) : selected :=
  if closed ch then SendOnClosed
  else if (length (buffer ch) <? capacity ch)%nat
       then SendCase {| buffer := buffer ch ++ [v]; capacity := capacity ch;
                        closed := false |}
       else DefaultCase.

(** Body of the loop of [broadcastProjectUpdate] for one subscriber. *)
Definition notify (project : loc) (fromID : string)
    (subscriber : ProjectSubscriber) (σ : State) : outcome :=
  if decide (sockedID subscriber = fromID) then Done σ
  else
    match projects σ !! project with
    | None => Panic σ "nil pointer dereference"
    | Some p =>
        let p' := {| ID := ID p; Elements := Elements p;
                     SocketID := sockedID subscriber |} in
        let σ1 := {| projectSubscribers := projectSubscribers σ;
                     chans := chans σ;
                     projects := <[project := p']> (projects σ);
                     sent := sent σ |} in
        match chans σ1 !! channel subscriber with
        | None => Done σ1   (* nil channel: never ready *)
        | Some ch =>
            match selectSend project ch with
            | SendCase ch' =>
                Done {| projectSubscribers := projectSubscribers σ1;
                        chans := <[channel subscriber := ch']> (chans σ1);
                        projects := projects σ1;
                        sent := sent σ1 ++ [mkDelivery subscriber project p'] |}
            | DefaultCase => Done σ1
            | SendOnClosed => Panic σ1 "send on closed channel"
            end
        end
    end.

Definition notifyAll (project : loc) (fromID : string)
    (subscribers : list ProjectSubscriber) (σ : State) : outcome :=
  foldl (λ o subscriber, σ ← o; notify project fromID subscriber σ)
        (Done σ) subscribers.

Definition broadcastProjectUpdate (projectID : string) (project : loc)
    (fromID : string) (σ : State) : outcome :=
  match projectSubscribers σ !! projectID with
  | Some subscribers => notifyAll project fromID subscribers σ
  | None => Done σ
  end.

(** The state an outcome leaves behind. *)
Definition stateOf (o : outcome) : State :=
  match o with Done σ => σ | Panic σ _ => σ end.

(** Modelled from the spec: the subscription session is not among the
    sources. Per the spec, [Subscribe] creates a delivery channel of
    capacity 1 and registers it; [make] is that allocation. *)
Definition make (capacity : nat) (σ : State) : State * loc :=
  let c := fresh (dom (chans σ)) in
  (setChan c {| buffer := []; capacity := capacity; closed := false |} σ, c).

Definition Subscribe (projectID : string) (draw : N) (σ : State) : State * string :=
  let '(σ1, ch) := make 1 σ in
  subscribeToProject projectID ch draw σ1.

(** Sequences of registry operations. *)
Inductive op :=
  | OpSubscribe (projectID : string) (draw : N)
  | OpUnsubscribe (projectID socketID : string).

Definition step (o : op) (σ : State) : outcome :=
  match o with
  | OpSubscribe projectID draw => Done (Subscribe projectID draw σ).1
  | OpUnsubscribe projectID socketID => unsubscribeFromProject projectID socketID σ
  end.

Definition runOps (ops : list op) (σ : State) : outcome :=
  foldl (λ o x, σ ← o; step x σ) (Done σ) ops.

(** The registry invariant: no key is bound to an empty list. *)
Definition registryInv (σ : State) : Prop :=
  ∀ projectID subscribers,
    projectSubscribers σ !! projectID = Some subscribers → subscribers ≠ [].

(** Every registered channel is allocated and open, and no channel is
    registered twice. *)
Definition channelsOpen (σ : State) (subscribers : list ProjectSubscriber) : Prop :=
  ∀ s, s ∈ subscribers → ∃ ch, chans σ !! channel s = Some ch ∧ closed ch = false.

Definition channelsOwned (σ : State) : Prop :=
  (∀ projectID subscribers,
     projectSubscribers σ !! projectID = Some subscribers →
     channelsOpen σ subscribers ∧ NoDup (channel <$> subscribers)) ∧
  (∀ p1 p2 l1 l2 s1 s2,
     p1 ≠ p2 →
     projectSubscribers σ !! p1 = Some l1 → projectSubscribers σ !! p2 = Some l2 →
     s1 ∈ l1 → s2 ∈ l2 → channel s1 ≠ channel s2).

(** What [notify] leaves in the channel [ch] of subscriber [s]. *)
Definition afterNotify (project : loc) (fromID : string)
    (s : ProjectSubscriber) (ch : chan) : chan :=
  if decide (sockedID s = fromID) then ch
  else if (length (buffer ch) <? capacity ch)%nat
       then {| buffer := buffer ch ++ [project]; capacity := capacity ch;
               closed := false |}
       else ch.

(** A send of the broadcast of [project] from [fromID] to [subscribers]:
    it goes to one of them, not to the origin, passes the pointer [project],
    and the record holds the recipient's token when it is sent. *)
Definition addressedTo (project : loc) (fromID : string)
    (subscribers : list ProjectSubscriber) (d : delivery) : Prop :=
  recipient d ∈ subscribers ∧
  sockedID (recipient d) ≠ fromID ∧
  update d = project ∧
  SocketID (carried d) = sockedID (recipient d).

(** The caller's [&model.ProjectSubscription{...}], placed at address [l]. *)
Definition withProject (l : loc) (p : ProjectSubscription) (σ : State) : State :=
  {| projectSubscribers := projectSubscribers σ; chans := chans σ;
     projects := <[l := p]> (projects σ); sent := sent σ |}.

(** Scenario: two sessions subscribe to project "p"; an update for "p" is
    ready at address 0. *)
Definition twoSubscribers : State :=
  withProject 0 (mkProjectSubscription "p" "[]" "")
    (Subscribe "p" 2 (Subscribe "p" 1 NewResolver).1).1.

Definition tokenA : string := generateRandom8DigitString 1.
Definition tokenB : string := generateRandom8DigitString 2.

(** Scenario: a third session joins. *)
Definition threeSubscribers : State := (Subscribe "p" 3 twoSubscribers).1.

Definition tokenC : string := generateRandom8DigitString 3.

(** Scenario: as above, but the channel of the second subscriber (address 1)
    has been closed while the subscriber is still registered. *)
Definition closedSubscriber : State := stateOf (close 1 threeSubscribers).

(** The sends one call of [broadcastProjectUpdate] performs. *)
Definition newlySent (projectID : string) (project : loc) (fromID : string)
    (σ : State) : list delivery :=
  drop (length (sent σ))
       (sent (stateOf (broadcastProjectUpdate projectID project fromID σ))).

(** The send case of [select] can run on [ch]. *)
Definition canAccept (ch : chan) : Prop :=
  closed ch = false ∧ (length (buffer ch) < capacity ch)%nat.

End Server.

(** ** Client side: change detection and the handlers of [Project.tsx] *)

Module Detect.

(** [xs.join(sep)] *)
Definition join (sep : string) (xs : list string) : string := String.concat sep xs.

(** [getElementsHash]; [`${el.version}`] is the decimal notation. *)
Definition getElementsHash (elements : Elements) : string :=
  let idVersionPairs :=
    (λ el, id el +:+ ":" +:+ pretty (version el)) <$> elements in
  pretty (length elements) +:+ ":" +:+ join "," idVersionPairs.

(** The character [c] occurs in [s]. *)
Fixpoint occurs (c : Ascii.ascii) (s : string) : Prop :=
  match s with
  | EmptyString => False
  | String a s' => a = c ∨ occurs c s'
  end.

(** An ID that contains neither separator of the hash. *)
Definition plainId (s : string) : Prop :=
  ¬ occurs ":"%char s ∧ ¬ occurs ","%char s.

End Detect.

Import Detect.

Module Handlers.

(** What the component keeps across renders: its refs, and the elements the
    canvas holds ([excalidrawApi.getSceneElements()], [updateScene]). *)
Record State := mkState {
  isRemoteUpdateRef : bool;
  lastElementsHashRef : string;
  refs : Project.State;
  scene : Elements;
}.

Definition setRefs (r : Project.State) (st : State) : State :=
  {| isRemoteUpdateRef := isRemoteUpdateRef st;
     lastElementsHashRef := lastElementsHashRef st;
     refs := r;
     scene := scene st |}.

Definition setLastSynced (elements : Elements) (r : Project.State) : Project.State :=
  {| Project.lastSyncedElementsRef := elements;
     Project.pendingUpdateRef := Project.pendingUpdateRef r;
     Project.timers := Project.timers r;
     Project.nextHandle := Project.nextHandle r;
     Project.mutations := Project.mutations r |}.

(** [onChange]; [initialSet] is the value its closure captured. *)
Definition onChange (initialSet : bool) (elements : Elements) (st : State) : State :=
  if isRemoteUpdateRef st then
    {| isRemoteUpdateRef := false;
       lastElementsHashRef := lastElementsHashRef st;
       refs := refs st;
       scene := scene st |}
  else if negb initialSet then st
  else
    let currentHash := getElementsHash elements in
    if String.eqb currentHash (lastElementsHashRef st) then st
    else
      {| isRemoteUpdateRef := false;
         lastElementsHashRef := currentHash;
         refs := Project.sendUpdate elements (refs st);
         scene := scene st |}.

Section runtime.

(** [JSON.parse] followed by the cast to an element array; [None] when the
    [try] block throws on it. [trim] is [String.prototype.trim]. *)
Variable JSON_parse : string → option Elements.
Variable trim : string → string.

(** The text handed to [JSON.parse]: a missing or blank payload stands for
    the empty array. [elements] is [subscriptionData?.project.elements]. *)
Definition toParse (elements : option string) : string :=
  let toParse := default "[]" elements in
  if String.eqb (trim toParse) "" then "[]" else toParse.

(** The effect that handles subscription data; the result carries the value
    of [initialSet] after the effect. *)
Definition subscriptionEffect (excalidrawApi subscriptionLoading : bool)
    (elements : option string) (initialSet : bool) (st : State) : State * bool :=
  if excalidrawApi && negb subscriptionLoading then
    match JSON_parse (toParse elements) with
    | Some incomingElements =>
        let incomingHash := getElementsHash incomingElements in
        if String.eqb incomingHash (lastElementsHashRef st) then (st, true)
        else
          let currentElements := scene st in
          let mergedElements :=
            mergeElements currentElements incomingElements
              (Project.lastSyncedElementsRef (refs st)) in
          ({| isRemoteUpdateRef := true;
              lastElementsHashRef := getElementsHash mergedElements;
              refs := setLastSynced incomingElements (refs st);
              scene := mergedElements |}, true)
    | None =>
        ({| isRemoteUpdateRef := false;
            lastElementsHashRef := lastElementsHashRef st;
            refs := refs st;
            scene := scene st |}, initialSet)
    end
  else (st, initialSet).

End runtime.

(** A runtime for the examples: every payload parses to {X:v1}. *)
Definition parseX1 (s : string) : option Elements := Some [X_v1].

(** A client showing {X:v2}, an edit not yet handed to [sendUpdate], on top
    of the synced {X:v1}. *)
Definition editing : State :=
  {| isRemoteUpdateRef := false;
     lastElementsHashRef := getElementsHash [X_v1];
     refs := Project.synced;
     scene := [X_v2] |}.

End Handlers.

(** The effect of [ProjectEnhanced.tsx] that follows the subscription. *)
Module EnhancedEffects.

Definition statusEffect (subscriptionError subscriptionLoading subscriptionData : bool)
    (st : ProjectEnhanced.State) : ProjectEnhanced.State :=
  if subscriptionError then
    {| ProjectEnhanced.lastSyncedElementsRef := ProjectEnhanced.lastSyncedElementsRef st;
       ProjectEnhanced.pendingUpdateRef := ProjectEnhanced.pendingUpdateRef st;
       ProjectEnhanced.retryCountRef := ProjectEnhanced.retryCountRef st;
       ProjectEnhanced.connectionStatus := ProjectEnhanced.disconnected;
       ProjectEnhanced.timers := ProjectEnhanced.timers st;
       ProjectEnhanced.nextHandle := ProjectEnhanced.nextHandle st;
       ProjectEnhanced.mutations := ProjectEnhanced.mutations st |}
  else if subscriptionLoading then
    {| ProjectEnhanced.lastSyncedElementsRef := ProjectEnhanced.lastSyncedElementsRef st;
       ProjectEnhanced.pendingUpdateRef := ProjectEnhanced.pendingUpdateRef st;
       ProjectEnhanced.retryCountRef := ProjectEnhanced.retryCountRef st;
       ProjectEnhanced.connectionStatus := ProjectEnhanced.syncing;
       ProjectEnhanced.timers := ProjectEnhanced.timers st;
       ProjectEnhanced.nextHandle := ProjectEnhanced.nextHandle st;
       ProjectEnhanced.mutations := ProjectEnhanced.mutations st |}
  else if subscriptionData then
    {| ProjectEnhanced.lastSyncedElementsRef := ProjectEnhanced.lastSyncedElementsRef st;
       ProjectEnhanced.pendingUpdateRef := ProjectEnhanced.pendingUpdateRef st;
       ProjectEnhanced.retryCountRef := 0;
       ProjectEnhanced.connectionStatus := ProjectEnhanced.connected;
       ProjectEnhanced.timers := ProjectEnhanced.timers st;
       ProjectEnhanced.nextHandle := ProjectEnhanced.nextHandle st;
       ProjectEnhanced.mutations := ProjectEnhanced.mutations st |}
  else st.

(** Every pending timer was handed out before [n]. *)
Definition handlesBelow (n : nat) (timers : list timer) : Prop :=
  ∀ t, t ∈ timers → (handle t < n)%nat.

(** A burst of edits: [sendUpdate] for each snapshot in turn, no timer
    firing in between. *)
Definition burst (snapshots : list Elements) (st : ProjectEnhanced.State)
  : ProjectEnhanced.State :=
  foldl (λ st elements, ProjectEnhanced.sendUpdate elements st) st snapshots.

Definition burstBase (snapshots : list Elements) (st : Project.State)
  : Project.State :=
  foldl (λ st elements, Project.sendUpdate elements st) st snapshots.

(** The timers [sendUpdate] keeps: all but the pending one. *)
Definition kept (pending : option nat) (timers : list timer) : list timer :=
  match pending with
  | Some h => clearTimeout h timers
  | None => timers
  end.

(** A client whose send of {X:v1} failed once (its retry is pending) and
    which then scheduled the newer {X:v2}. *)
Definition retryAndNewer : ProjectEnhanced.State :=
  ProjectEnhanced.sendUpdate [X_v2]
    (ProjectEnhanced.mutateSettled [X_v1] (Rejected "Network error")
       (ProjectEnhanced.timerFired (Some "10000001") [X_v1]
          ProjectEnhanced.initial)).

End EnhancedEffects.

(** ** Server side: invariants of the channel store *)

Module Channels.
Import Server.

(** No buffer holds more than its channel's capacity. *)
Definition withinCapacity (σ : State) : Prop :=
  ∀ c ch, chans σ !! c = Some ch → (length (buffer ch) ≤ capacity ch)%nat.

(** The subscribers a broadcast from [fromID] writes to. *)
Definition recipients (fromID : string) (subscribers : list ProjectSubscriber)
  : list ProjectSubscriber :=
  filter (λ s, sockedID s ≠ fromID) subscribers.

(** A channel after a broadcast, compared with before: same capacity, same
    closed flag, and the old buffer is still there, at the front. *)
Definition grown (ch ch' : chan) : Prop :=
  capacity ch' = capacity ch ∧ closed ch' = closed ch ∧
  buffer ch `prefix_of` buffer ch'.

(** A record after a broadcast: only its [SocketID] may differ. *)
Definition restamped (p p' : ProjectSubscription) : Prop :=
  ID p' = ID p ∧ Elements p' = Elements p.

(** What a broadcast of [project] may change between [σ] and [σ']. *)
Definition broadcastFrame (project : loc) (σ σ' : State) : Prop :=
  projectSubscribers σ' = projectSubscribers σ ∧
  (∀ c, option_Forall2 grown (chans σ !! c) (chans σ' !! c)) ∧
  (∀ l, l ≠ project → projects σ' !! l = projects σ !! l) ∧
  option_Forall2 restamped (projects σ !! project) (projects σ' !! project).

(** Scenario: two subscribers, and a fresh open channel at address 5 for a
    third. *)
Definition spareChannel : State := setChan 5 (mkChan [] 1 false) twoSubscribers.

(** Scenario: the third subscriber's channel still holds an earlier update
    (address 7) when the next one is broadcast. *)
Definition thirdIsFull : State :=
  setChan 2 (mkChan [7%nat] 1 false) threeSubscribers.

End Channels.

(** * Properties of [mergeElements] *)

Section merge.
Implicit Types (current incoming lastSynced xs merged : Elements).
Implicit Types (el c m : OrderedExcalidrawElement) (k : string).

Lemma new_Map_snoc es k el : new_Map (es ++ [(k, el)]) = <[k := el]> (new_Map es).
Proof. unfold new_Map. by rewrite foldl_snoc. Qed.

Lemma entries_snoc xs el : entries (xs ++ [el]) = entries xs ++ [(id el, el)].
Proof. unfold entries. by rewrite fmap_app. Qed.

Lemma get_snoc xs el k :
  get (xs ++ [el]) k = if decide (id el = k) then Some el else get xs k.
Proof. unfold get. by rewrite entries_snoc, new_Map_snoc, lookup_insert. Qed.

Lemma get_None xs k : get xs k = None ↔ k ∉ id <$> xs.
Proof.
  induction xs as [|el xs IH] using rev_ind.
  - unfold get; cbn. rewrite lookup_empty. set_solver.
  - rewrite get_snoc, fmap_app. case_decide; [|rewrite IH]; set_solver.
Qed.

Lemma get_Some_elem_of xs k el : get xs k = Some el → el ∈ xs ∧ id el = k.
Proof.
  induction xs as [|x xs IH] using rev_ind.
  - unfold get; cbn. by rewrite lookup_empty.
  - rewrite get_snoc. case_decide.
    + intros [= ->]. set_solver.
    + intros H0. destruct (IH H0). set_solver.
Qed.

Lemma get_NoDup xs el : NoDup (id <$> xs) → el ∈ xs → get xs (id el) = Some el.
Proof.
  induction xs as [|x xs IH] using rev_ind; [set_solver|].
  rewrite fmap_app, NoDup_app, get_snoc. intros (Hxs & Hdisj & _) Hin.
  case_decide as Hid.
  - apply elem_of_app in Hin as [Hin|Hin]; [|set_solver].
    exfalso. apply (Hdisj (id el)); [by apply list_elem_of_fmap_2|]. set_solver.
  - apply IH; [done|]. set_solver.
Qed.

Lemma mergeIncoming_pick current lastSynced merged el :
  mergeIncoming (new_Map (entries current)) (new_Map (entries lastSynced)) merged el
  = merged ++ [pick current lastSynced el].
Proof.
  unfold mergeIncoming, pick, get, push.
  destruct (new_Map (entries current) !! id el) as [c|]; [|done].
  destruct (new_Map (entries lastSynced) !! id el) as [l|]; [|done].
  by destruct (version c >? version l), (version c >=? version el).
Qed.

Lemma first_loop current lastSynced merged incoming :
  foldl (mergeIncoming (new_Map (entries current)) (new_Map (entries lastSynced)))
        merged incoming
  = merged ++ (pick current lastSynced <$> incoming).
Proof.
  revert merged. induction incoming as [|el incoming IH]; intros merged; cbn.
  - by rewrite app_nil_r.
  - by rewrite IH, mergeIncoming_pick, <- app_assoc.
Qed.

Lemma mergeLocal_filter incoming lastSynced merged el :
  mergeLocal (new_Map (entries incoming)) (new_Map (entries lastSynced)) merged el
  = merged ++ filter (brandNew incoming lastSynced) [el].
Proof.
  unfold mergeLocal, has, push.
  rewrite filter_cons, filter_nil. unfold brandNew.
  fold (get incoming (id el)). fold (get lastSynced (id el)).
  destruct (get incoming (id el)) eqn:Hi; cbn.
  - rewrite decide_False, app_nil_r; [done|].
    intros [Hn _]. apply get_None in Hn. congruence.
  - apply get_None in Hi.
    destruct (get lastSynced (id el)) eqn:Hl.
    + rewrite decide_False, app_nil_r; [done|].
      intros [_ Hn]. apply get_None in Hn. congruence.
    + apply get_None in Hl. by rewrite decide_True.
Qed.

Lemma second_loop incoming lastSynced merged current :
  foldl (mergeLocal (new_Map (entries incoming)) (new_Map (entries lastSynced)))
        merged current
  = merged ++ filter (brandNew incoming lastSynced) current.
Proof.
  revert merged. induction current as [|el current IH]; intros merged.
  - cbn. by rewrite app_nil_r.
  - cbn [foldl]. rewrite IH, mergeLocal_filter, <- app_assoc.
    f_equal. by rewrite <- filter_app.
Qed.

(** Closed form of the merge: the first sync adopts [incoming]; afterwards
    the result is one choice per incoming element followed by the brand-new
    local elements. *)
Lemma mergeElements_first_sync current incoming :
  mergeElements current incoming [] = incoming.
Proof. done. Qed.

Lemma mergeElements_unfold current incoming lastSynced :
  lastSynced ≠ [] →
  mergeElements current incoming lastSynced
  = (pick current lastSynced <$> incoming)
    ++ filter (brandNew incoming lastSynced) current.
Proof.
  intros Hne. unfold mergeElements.
  destruct lastSynced as [|l ls]; [done|]. cbn [length Nat.eqb].
  by rewrite second_loop, first_loop.
Qed.

Lemma pick_id current lastSynced el : id (pick current lastSynced el) = id el.
Proof.
  unfold pick. destruct (get current (id el)) as [c|] eqn:Hc; [|done].
  destruct (get lastSynced (id el)); [|done].
  case_match; [|done]. by apply get_Some_elem_of in Hc as [_ ?].
Qed.

Lemma pick_ids current lastSynced incoming :
  id <$> (pick current lastSynced <$> incoming) = id <$> incoming.
Proof.
  rewrite <- list_fmap_compose. apply list_fmap_ext. intros _ el _. apply pick_id.
Qed.

(** [C1] Local-wins rule. Let [incomingEl] be the element at position [i]
    of [incoming]. If [current] holds [currentEl] for that ID, [lastSynced]
    holds [lastSyncedEl] for it, the local version is strictly higher than
    the last-synced one and at least the incoming one, then position [i] of
    the merge result is [current]'s copy. *)
Theorem merge_local_wins current incoming lastSynced i incomingEl currentEl lastSyncedEl :
  incoming !! i = Some incomingEl →
  get current (id incomingEl) = Some currentEl →
  get lastSynced (id incomingEl) = Some lastSyncedEl →
  version currentEl > version lastSyncedEl →
  version currentEl >= version incomingEl →
  mergeElements current incoming lastSynced !! i = Some currentEl.
Proof.
  intros Hi Hc Hl Hgt Hge.
  assert (lastSynced ≠ []) as Hne.
  { intros ->. unfold get in Hl. cbn in Hl. by rewrite lookup_empty in Hl. }
  rewrite mergeElements_unfold by done.
  rewrite lookup_app_l by (rewrite length_fmap; by eapply lookup_lt_Some).
  rewrite list_lookup_fmap, Hi. cbn. f_equal.
  unfold pick. rewrite Hc, Hl.
  assert (version currentEl >? version lastSyncedEl = true) as -> by lia.
  by assert (version currentEl >=? version incomingEl = true) as -> by lia.
Qed.

(** The local-wins scenario: last-synced = {X:v1}, current = {X:v2},
    incoming carries X:v1; the merge keeps X at v2. *)
Lemma merge_local_wins_scenario :
  mergeElements [X_v2] [X_v1] [X_v1] !! 0%nat = Some X_v2.
Proof. by apply (merge_local_wins [X_v2] [X_v1] [X_v1] 0 X_v1 X_v2 X_v1). Defined.

Example merge_local_wins_run : mergeElements [X_v2] [X_v1] [X_v1] = [X_v2].
Proof. reflexivity. Qed.

(** Without a local edit since the last sync the incoming copy is adopted,
    whatever its version: last-synced = {X:v5}, current = {X:v5}, incoming
    carries X:v3, and the merge result holds X at v3. *)
Lemma merge_regresses_without_local_edit :
  ∃ c m, c ∈ [X_v5] ∧ m ∈ mergeElements [X_v5] [X_v3] [X_v5] ∧
         id m = id c ∧ version m < version c.
Proof. exists X_v5, X_v3. split_and!; [by left|by left|done|done]. Qed.

Example merge_regresses_on_first_sync : mergeElements [X_v5] [X_v3] [] = [X_v3].
Proof. reflexivity. Qed.

(** The half of the version rule that protects a local edit. For an element
    of [current] and an element of the merge result with the same ID, the result's version is at least [current]'s
    whenever the ID is absent from [incoming], or [lastSynced] holds the ID
    at a strictly lower version than [current] (a local edit since the last
    sync). IDs are unique within [current]. *)
Theorem merge_keeps_local_edit_version current incoming lastSynced c m :
  NoDup (id <$> current) →
  c ∈ current →
  m ∈ mergeElements current incoming lastSynced →
  id m = id c →
  (id c ∉ (id <$> incoming) ∨
   ∃ l, get lastSynced (id c) = Some l ∧ version l < version c) →
  version c ≤ version m.
Proof.
  intros Hnd Hc Hm Hid Hcase.
  destruct (decide (lastSynced = [])) as [->|Hne].
  - rewrite mergeElements_first_sync in Hm.
    destruct Hcase as [Hni|(l & Hl & _)].
    + exfalso. apply Hni. rewrite <- Hid. by apply list_elem_of_fmap_2.
    + unfold get in Hl. cbn in Hl. by rewrite lookup_empty in Hl.
  - rewrite mergeElements_unfold in Hm by done.
    apply elem_of_app in Hm as [Hm|Hm].
    + apply list_elem_of_fmap in Hm as (el & -> & Hel).
      rewrite pick_id in Hid.
      destruct Hcase as [Hni|(l & Hl & Hlt)].
      { exfalso. apply Hni. rewrite <- Hid. by apply list_elem_of_fmap_2. }
      unfold pick. rewrite Hid, Hl, (get_NoDup current c) by done.
      destruct (version c >=? version el) eqn:Hge; rewrite ?andb_true_r, ?andb_false_r.
      * case_match; [done|lia].
      * lia.
    + apply list_elem_of_filter in Hm as [_ Hm].
      assert (get current (id c) = Some m) as Hgm.
      { rewrite <- Hid. by apply get_NoDup. }
      rewrite (get_NoDup current c) in Hgm by done. by injection Hgm as ->.
Qed.

Lemma merge_keeps_local_edit_version_witness :
  X_v5 ∈ mergeElements [X_v5] [X_v3] [X_v1] ∧ version X_v5 ≤ version X_v5.
Proof.
  split; [by left|].
  apply (merge_keeps_local_edit_version [X_v5] [X_v3] [X_v1] X_v5 X_v5).
  - apply NoDup_singleton.
  - by left.
  - by left.
  - done.
  - right. exists X_v1. split; [reflexivity|]. cbn. lia.
Defined.

(** On the first sync the rule does not hold: last-synced is empty, so the
    ID of the local element is absent from it and from [incoming], yet the
    element is dropped because [incoming] replaces [current]. *)
Lemma merge_first_sync_drops_new_local :
  X_v1 ∈ [X_v1] ∧
  id X_v1 ∉ (id <$> ([] : Elements)) ∧
  id X_v1 ∉ (id <$> ([] : Elements)) ∧
  X_v1 ∉ mergeElements [X_v1] [] [].
Proof. split_and!; [by left|..]; cbn; apply not_elem_of_nil. Qed.

(** [C9], as the code has it. When [lastSynced] is non-empty, a local element whose ID
    is absent from [incoming] is in the merge result if its ID is absent from
    [lastSynced] as well, and otherwise no element of the result has its ID. *)
Theorem merge_deletion_and_new_rule current incoming lastSynced c :
  lastSynced ≠ [] →
  c ∈ current →
  id c ∉ (id <$> incoming) →
  (id c ∉ (id <$> lastSynced) → c ∈ mergeElements current incoming lastSynced) ∧
  (id c ∈ (id <$> lastSynced) →
     id c ∉ (id <$> mergeElements current incoming lastSynced)).
Proof.
  intros Hne Hc Hni. rewrite mergeElements_unfold by done. split.
  - intros Hnl. apply elem_of_app. right. by apply list_elem_of_filter.
  - intros Hl. rewrite fmap_app, pick_ids. intros [H|H]%elem_of_app; [done|].
    apply list_elem_of_fmap in H as (el & Hid & Hel).
    apply list_elem_of_filter in Hel as [[_ Hnl] _]. congruence.
Qed.

(** Deletion propagation: last-synced = {X:v1, Y:v1}, incoming = {X:v1},
    no local edit to Y; the merge result has no Y. *)
Lemma merge_deletion_scenario :
  (id Y_v1 ∉ (id <$> [X_v1; Y_v1]) →
     Y_v1 ∈ mergeElements [X_v1; Y_v1] [X_v1] [X_v1; Y_v1]) ∧
  (id Y_v1 ∈ (id <$> [X_v1; Y_v1]) →
     id Y_v1 ∉ (id <$> mergeElements [X_v1; Y_v1] [X_v1] [X_v1; Y_v1])).
Proof.
  apply (merge_deletion_and_new_rule [X_v1; Y_v1] [X_v1] [X_v1; Y_v1] Y_v1).
  - done.
  - set_solver.
  - cbn. set_solver.
Defined.

Example merge_deletion_run :
  mergeElements [X_v1; Y_v1] [X_v1] [X_v1; Y_v1] = [X_v1].
Proof. reflexivity. Qed.

(** [C10] Shape of the result when IDs are pairwise distinct in [current]
    and in [incoming]: no ID occurs twice; the IDs are those of [incoming] in
    [incoming]'s order, followed by the kept local elements in [current]'s
    order, which are the brand-new ones after the first sync and none on the
    first sync; every ID of the result comes from [current] or [incoming]. *)
Theorem merge_shape current incoming lastSynced :
  NoDup (id <$> current) →
  NoDup (id <$> incoming) →
  let merged := mergeElements current incoming lastSynced in
  let kept := if decide (lastSynced = []) then []
              else filter (brandNew incoming lastSynced) current in
  NoDup (id <$> merged) ∧
  (∃ chosen, merged = chosen ++ kept ∧ id <$> chosen = id <$> incoming) ∧
  (∀ m, m ∈ merged → id m ∈ (id <$> current) ∨ id m ∈ (id <$> incoming)).
Proof.
  intros Hc Hi merged kept. subst merged kept.
  case_decide as Hls.
  - subst. rewrite mergeElements_first_sync. split_and!.
    + done.
    + exists incoming. by rewrite app_nil_r.
    + intros m Hm. right. by apply list_elem_of_fmap_2.
  - rewrite mergeElements_unfold by done. split_and!.
    + rewrite fmap_app, pick_ids. apply NoDup_app. split_and!.
      * done.
      * intros k Hk [el [-> [[Hn _] _]%list_elem_of_filter]]%list_elem_of_fmap. done.
      * apply (NoDup_fmap_2_strong id); [|by apply NoDup_filter, (NoDup_fmap_1 id)].
        intros x y [_ Hx]%list_elem_of_filter [_ Hy]%list_elem_of_filter Hxy.
        apply (get_NoDup current) in Hx, Hy; try done. congruence.
    + eexists. split; [done|apply pick_ids].
    + intros m [Hm|Hm]%elem_of_app.
      * right. rewrite <- (pick_ids current lastSynced). by apply list_elem_of_fmap_2.
      * left. apply list_elem_of_filter in Hm as [_ Hm]. by apply list_elem_of_fmap_2.
Qed.

Lemma merge_shape_witness :
  let merged := mergeElements [X_v2; Y_v1] [X_v1] [X_v1] in
  let kept := if decide ([X_v1] = []) then []
              else filter (brandNew [X_v1] [X_v1]) [X_v2; Y_v1] in
  NoDup (id <$> merged) ∧
  (∃ chosen, merged = chosen ++ kept ∧ id <$> chosen = id <$> [X_v1]) ∧
  (∀ m, m ∈ merged → id m ∈ (id <$> [X_v2; Y_v1]) ∨ id m ∈ (id <$> [X_v1])).
Proof.
  apply (merge_shape [X_v2; Y_v1] [X_v1] [X_v1]).
  - cbn. apply NoDup_cons. split; [set_solver|apply NoDup_singleton].
  - apply NoDup_singleton.
Defined.

Example merge_shape_run : mergeElements [X_v2; Y_v1] [X_v1] [X_v1] = [X_v2; Y_v1].
Proof. reflexivity. Qed.

End merge.

(** * Properties of the outbound send *)

Section send.
Implicit Types (elements : Elements) (socketID : option string) (error : string).

Lemma Project_timerFired_lastSynced socketID elements (st : Project.State) outcome :
  truthy socketID = true →
  Project.lastSyncedElementsRef
    (Project.mutateSettled outcome (Project.timerFired socketID elements st))
  = elements.
Proof. intros H. unfold Project.mutateSettled, Project.timerFired. by rewrite H. Qed.

(** [C6] In [Project.tsx] a send that fails still overwrites the last-synced
    snapshot: the client has synced {X:v1}, edits X to v2, the throttle timer
    fires and the mutation is rejected; last-synced is {X:v2}. *)
Theorem Project_failed_send_overwrites_lastSynced :
  let st := Project.sendUpdate [X_v2] Project.synced in
  Project.lastSyncedElementsRef st = [X_v1] ∧
  Project.lastSyncedElementsRef
    (Project.mutateSettled (Rejected "Network error")
       (Project.timerFired (Some "10000001") [X_v2] st))
  = [X_v2].
Proof. split; [done|]. by apply Project_timerFired_lastSynced. Qed.

(** In the enhanced component scheduling and firing leave last-synced
    alone, and only a resolved mutation moves it. *)
Lemma ProjectEnhanced_lastSynced socketID elements (st : ProjectEnhanced.State) outcome :
  ProjectEnhanced.lastSyncedElementsRef (ProjectEnhanced.sendUpdate elements st)
  = ProjectEnhanced.lastSyncedElementsRef st ∧
  ProjectEnhanced.lastSyncedElementsRef (ProjectEnhanced.timerFired socketID elements st)
  = ProjectEnhanced.lastSyncedElementsRef st ∧
  ProjectEnhanced.lastSyncedElementsRef (ProjectEnhanced.mutateSettled elements outcome st)
  = match outcome with
    | Resolved => elements
    | Rejected _ => ProjectEnhanced.lastSyncedElementsRef st
    end.
Proof.
  unfold ProjectEnhanced.mutateSettled, ProjectEnhanced.timerFired.
  split_and!; [done|by case_match|].
  destruct outcome; [done|by case_match].
Qed.

End send.

Section retry.
Import ProjectEnhanced.
Implicit Types (elements : Elements) (socketID : option string) (error : string).
Implicit Types (st : State).

Lemma clearTimeout_singleton (t : timer) h : handle t = h → clearTimeout h [t] = [].
Proof.
  intros <-. unfold clearTimeout. rewrite filter_cons, decide_False; [done|]. by intros [].
Qed.

Lemma backoff_cons k :
  0 ≤ k < MAX_RETRIES → backoff k = 1000 * (k + 1) :: backoff (k + 1).
Proof.
  intros Hk. unfold backoff. rewrite (seqZ_cons (k + 1)) by lia. cbn.
  do 3 f_equal; lia.
Qed.

Lemma backoff_done : backoff MAX_RETRIES = [].
Proof. done. Qed.

Lemma fire_throttled socketID elements st t :
  truthy socketID = true →
  timers st = [t] → run t = Throttled elements →
  fire socketID t st
  = {| lastSyncedElementsRef := lastSyncedElementsRef st;
       pendingUpdateRef := pendingUpdateRef st;
       retryCountRef := retryCountRef st;
       connectionStatus := syncing;
       timers := [];
       nextHandle := nextHandle st;
       mutations := mutations st ++ [elements] |}.
Proof.
  intros Hs Ht Hrun. unfold fire, timerFired. rewrite Hrun, Hs. cbn.
  by rewrite Ht, clearTimeout_singleton.
Qed.

Lemma failures_spec n socketID elements error st t k :
  truthy socketID = true →
  timers st = [t] → run t = Throttled elements →
  retryCountRef st = k → 0 ≤ k ≤ MAX_RETRIES →
  (failures n socketID elements error st).2 = take n (backoff k) ∧
  mutations (failures n socketID elements error st).1
  = mutations st ++ replicate (n `min` Z.to_nat (MAX_RETRIES + 1 - k)) elements.
Proof.
  intros Hs. revert st t k.
  induction n as [|n IH]; intros st t k Ht Hrun Hk Hrange.
  { cbn. by rewrite app_nil_r. }
  cbn [failures]. rewrite Ht. cbn [last].
  rewrite (fire_throttled _ elements) by done.
  unfold mutateSettled. cbn [retryCountRef timers nextHandle]. rewrite Hk.
  destruct (decide (k < MAX_RETRIES)) as [Hlt|Hge].
  - assert (k <? MAX_RETRIES = true) as -> by lia.
    unfold scheduledRetry. cbn [timers app last run].
    rewrite backoff_cons by lia.
    match goal with |- context [failures n _ _ _ ?σ] =>
      specialize (IH σ (mkTimer (S (nextHandle st))
                          (getThrottleDelay (Z.of_nat (length elements)))
                          (Throttled elements)) (k + 1)) end.
    destruct (failures n socketID elements error _) as [st2 ds] eqn:Hf.
    cbn [fst snd delay take].
    destruct IH as [IH1 IH2]; [|done| |lia|].
    { unfold fire, sendUpdate. cbn -[clearTimeout].
      by rewrite clearTimeout_singleton. }
    { done. }
    split; [by f_equal|].
    cbn [fst] in IH2. rewrite IH2. unfold fire, sendUpdate. cbn -[clearTimeout Nat.min].
    rewrite <- app_assoc. f_equal.
    replace (Z.to_nat (MAX_RETRIES + 1 - k))
      with (S (Z.to_nat (MAX_RETRIES + 1 - (k + 1)))) by (unfold MAX_RETRIES in *; lia).
    done.
  - assert (k <? MAX_RETRIES = false) as -> by lia.
    unfold scheduledRetry. cbn [timers last fst snd mutations].
    assert (k = MAX_RETRIES) as -> by lia. rewrite backoff_done.
    split; [by destruct n|].
    f_equal. by destruct n.
Qed.

(** The first failure already shows "disconnected", while a retry is
    pending; and [Project.tsx] schedules nothing when a send fails. *)
Lemma first_failure_signals_disconnected :
  let st := mutateSettled [X_v2] (Rejected "Network error")
              (timerFired (Some "10000001") [X_v2] initial) in
  (connectionStatus st = disconnected ∧
   scheduledRetry st = Some (mkTimer 0 1000 (Retry [X_v2]))) ∧
  Project.timers
    (Project.mutateSettled (Rejected "Network error")
       (Project.timerFired (Some "10000001") [X_v2] Project.synced)) = [].
Proof. done. Qed.

Lemma failures_exhausted n socketID elements error st t k :
  truthy socketID = true →
  timers st = [t] → run t = Throttled elements →
  retryCountRef st = k → 0 ≤ k ≤ MAX_RETRIES →
  (Z.to_nat (MAX_RETRIES + 1 - k) ≤ n)%nat →
  timers (failures n socketID elements error st).1 = [] ∧
  retryCountRef (failures n socketID elements error st).1 = MAX_RETRIES.
Proof.
  intros Hs. revert st t k.
  induction n as [|n IH]; intros st t k Ht Hrun Hk Hrange Hn.
  { unfold MAX_RETRIES in *. lia. }
  cbn [failures]. rewrite Ht. cbn [last].
  rewrite (fire_throttled _ elements) by done.
  unfold mutateSettled. cbn [retryCountRef timers nextHandle]. rewrite Hk.
  destruct (decide (k < MAX_RETRIES)) as [Hlt|Hge].
  - assert (k <? MAX_RETRIES = true) as -> by lia.
    unfold scheduledRetry. cbn [timers app last run].
    match goal with |- context [failures n _ _ _ ?σ] =>
      specialize (IH σ (mkTimer (S (nextHandle st))
                          (getThrottleDelay (Z.of_nat (length elements)))
                          (Throttled elements)) (k + 1)) end.
    destruct (failures n socketID elements error _) as [st2 ds] eqn:Hf.
    cbn [fst]. apply IH; [|done|done|lia|unfold MAX_RETRIES in *; lia].
    unfold fire, sendUpdate. cbn -[clearTimeout].
    by rewrite clearTimeout_singleton.
  - assert (k <? MAX_RETRIES = false) as -> by lia.
    unfold scheduledRetry. cbn [timers last fst retryCountRef]. split; [done|lia].
Qed.

(** Where the handling of a failed send departs from retry-then-signal:
    the first failure already shows "disconnected" while a retry is pending;
    after the last retry has failed no timer is left, so no timer tick sends
    the state again; and [Project.tsx] schedules nothing when a send
    fails. *)
Lemma failed_send_deviations :
  (connectionStatus
     (mutateSettled [X_v2] (Rejected "Network error")
        (timerFired (Some "10000001") [X_v2] initial)) = disconnected ∧
   scheduledRetry
     (mutateSettled [X_v2] (Rejected "Network error")
        (timerFired (Some "10000001") [X_v2] initial))
   = Some (mkTimer 0 1000 (Retry [X_v2]))) ∧
  (timers (failures 4 (Some "10000001") [X_v2] "Network error"
             (sendUpdate [X_v2] initial)).1 = [] ∧
   connectionStatus (failures 4 (Some "10000001") [X_v2] "Network error"
                       (sendUpdate [X_v2] initial)).1 = disconnected) ∧
  Project.timers
    (Project.mutateSettled (Rejected "Network error")
       (Project.timerFired (Some "10000001") [X_v2] Project.synced)) = [].
Proof. split_and!; reflexivity. Qed.

(** [C7], as the code has it. A failed send of the enhanced client sets the
    connection status to disconnected at once and leaves last-synced and the
    log of sent snapshots alone. While the retry count is below
    [MAX_RETRIES] it schedules one retry of the same snapshot, 1000 ms times
    the number of that retry later; otherwise it schedules nothing. The
    count is reset to 0 by a resolved send and by the arrival of
    subscription data. Hence failures in a row are retried after 1000, 2000
    and 3000 ms and no further, each attempt sending the same snapshot, and
    once the last retry has failed no timer is left. From any state the next
    [sendUpdate] schedules the snapshot it is given, and that snapshot is
    what its timer hands to the mutation. [Project.tsx] schedules no
    retry. *)
Theorem failed_send_retries socketID elements error st :
  let st' := mutateSettled elements (Rejected error) st in
  (connectionStatus st' = disconnected ∧
   lastSyncedElementsRef st' = lastSyncedElementsRef st ∧
   mutations st' = mutations st ∧
   (retryCountRef st < MAX_RETRIES →
      retryCountRef st' = retryCountRef st + 1 ∧
      timers st' = timers st ++
        [mkTimer (nextHandle st) (1000 * (retryCountRef st + 1)) (Retry elements)]) ∧
   (MAX_RETRIES ≤ retryCountRef st →
      retryCountRef st' = retryCountRef st ∧ timers st' = timers st)) ∧
  (retryCountRef (mutateSettled elements Resolved st) = 0 ∧
   retryCountRef (EnhancedEffects.statusEffect false false true st) = 0 ∧
   timers (EnhancedEffects.statusEffect false false true st) = timers st) ∧
  (truthy socketID = true → timers st = [] → retryCountRef st = 0 →
   ∀ n, let run := failures n socketID elements error (sendUpdate elements st) in
        run.2 = take n [1000; 2000; 3000] ∧
        mutations run.1 = mutations st ++ replicate (n `min` 4) elements ∧
        ((4 ≤ n)%nat → timers run.1 = [])) ∧
  (∀ elements',
     let st1 := sendUpdate elements' st in
     let t := mkTimer (nextHandle st)
                (getThrottleDelay (Z.of_nat (length elements'))) (Throttled elements') in
     last (timers st1) = Some t ∧
     pendingUpdateRef st1 = Some (nextHandle st) ∧
     (truthy socketID = true →
      mutations (fire socketID t st1) = mutations st ++ [elements'])) ∧
  (∀ (st0 : Project.State) outcome,
     Project.timers (Project.mutateSettled outcome st0) = Project.timers st0).
Proof.
  cbn zeta. split_and!; try done.
  - unfold mutateSettled. by case_match.
  - unfold mutateSettled. by case_match.
  - unfold mutateSettled. by case_match.
  - intros Hlt. unfold mutateSettled.
    by assert (retryCountRef st <? MAX_RETRIES = true) as -> by lia.
  - intros Hge. unfold mutateSettled.
    by assert (retryCountRef st <? MAX_RETRIES = false) as -> by lia.
  - intros Hs Ht Hk n.
    assert (timers (sendUpdate elements st)
            = [mkTimer (nextHandle st)
                 (getThrottleDelay (Z.of_nat (length elements)))
                 (Throttled elements)]) as Htimers.
    { unfold sendUpdate. cbn. rewrite Ht. by destruct (pendingUpdateRef st). }
    destruct (failures_spec n socketID elements error (sendUpdate elements st)
                _ 0 Hs Htimers eq_refl Hk) as [H1 H2]; [done|].
    split_and!; [done|done|].
    intros Hn.
    by destruct (failures_exhausted n socketID elements error (sendUpdate elements st)
                   _ 0 Hs Htimers eq_refl Hk) as [H3 _].
  - intros elements'. unfold sendUpdate. cbn. split_and!.
    + by rewrite last_snoc.
    + done.
    + intros Hs. unfold fire, timerFired. cbn. by rewrite Hs.
Qed.

Lemma failed_send_retries_witness :
  (failures 6 (Some "10000001") [X_v2] "Network error"
     (sendUpdate [X_v2] initial)).2 = [1000; 2000; 3000] ∧
  mutations (failures 6 (Some "10000001") [X_v2] "Network error"
               (sendUpdate [X_v2] initial)).1
  = [[X_v2]; [X_v2]; [X_v2]; [X_v2]] ∧
  timers (failures 6 (Some "10000001") [X_v2] "Network error"
            (sendUpdate [X_v2] initial)).1 = [].
Proof.
  destruct (failed_send_retries (Some "10000001") [X_v2] "Network error" initial)
    as (_ & _ & Hchain & _).
  destruct (Hchain eq_refl eq_refl eq_refl 6%nat) as (H1 & H2 & H3).
  split_and!; [exact H1|exact H2|apply H3; lia].
Defined.

End retry.

(** * Properties of the registry and of the broadcast *)

Section broadcast.
Import Server.
Implicit Types (σ : State) (s subscriber : ProjectSubscriber).
Implicit Types (subscribers : list ProjectSubscriber) (project : loc).
Implicit Types (projectID fromID socketID : string).

Lemma notifyAll_cons project fromID s subscribers σ :
  notifyAll project fromID (s :: subscribers) σ
  = andThen (notify project fromID s σ) (notifyAll project fromID subscribers).
Proof.
  unfold notifyAll. cbn [foldl andThen].
  destruct (notify project fromID s σ) as [σ1|σ1 reason]; [done|].
  cbn [andThen]. induction subscribers as [|s' l IH]; [done|]. by cbn.
Qed.

Lemma notify_sent project fromID s σ :
  ∃ new, sent (stateOf (notify project fromID s σ)) = sent σ ++ new ∧
         Forall (addressedTo project fromID [s]) new.
Proof.
  unfold notify. case_decide as Hfrom.
  { exists []. by rewrite app_nil_r. }
  destruct (projects σ !! project) as [p|]; cbn.
  2: { exists []. by rewrite app_nil_r. }
  destruct (chans σ !! channel s) as [ch|]; cbn.
  2: { exists []. by rewrite app_nil_r. }
  destruct (selectSend project ch); cbn.
  - eexists [_]. split; [done|]. apply Forall_singleton.
    repeat split; cbn; [set_solver|done].
  - exists []. by rewrite app_nil_r.
  - exists []. by rewrite app_nil_r.
Qed.

Lemma addressedTo_mono project fromID l1 l2 d :
  l1 ⊆ l2 → addressedTo project fromID l1 d → addressedTo project fromID l2 d.
Proof. intros Hsub (? & ? & ? & ?). repeat split; try done. by apply Hsub. Qed.

Lemma notifyAll_sent project fromID subscribers σ :
  ∃ new, sent (stateOf (notifyAll project fromID subscribers σ)) = sent σ ++ new ∧
         Forall (addressedTo project fromID subscribers) new.
Proof.
  revert σ. induction subscribers as [|s l IH]; intros σ.
  { exists []. cbn. by rewrite app_nil_r. }
  rewrite notifyAll_cons.
  destruct (notify_sent project fromID s σ) as (new1 & Hs1 & Hf1).
  destruct (notify project fromID s σ) as [σ1|σ1 reason]; cbn [andThen stateOf] in *.
  - destruct (IH σ1) as (new2 & Hs2 & Hf2).
    exists (new1 ++ new2). rewrite Hs2, Hs1, app_assoc. split; [done|].
    apply Forall_app. split.
    + eapply Forall_impl; [done|]. intros d. apply addressedTo_mono. set_solver.
    + eapply Forall_impl; [done|]. intros d. apply addressedTo_mono. set_solver.
  - exists new1. split; [done|].
    eapply Forall_impl; [done|]. intros d. apply addressedTo_mono. set_solver.
Qed.

Lemma broadcast_sent projectID project fromID σ :
  ∃ new,
    sent (stateOf (broadcastProjectUpdate projectID project fromID σ)) = sent σ ++ new ∧
    Forall (addressedTo project fromID (subscribersOf σ projectID)) new.
Proof.
  unfold broadcastProjectUpdate, subscribersOf.
  destruct (projectSubscribers σ !! projectID) as [l|]; cbn.
  - apply notifyAll_sent.
  - exists []. by rewrite app_nil_r.
Qed.

Lemma notify_open project fromID s σ :
  (sockedID s ≠ fromID → ∀ ch, chans σ !! channel s = Some ch → closed ch = false) →
  is_Some (projects σ !! project) →
  ∃ σ', notify project fromID s σ = Done σ' ∧
        is_Some (projects σ' !! project) ∧
        projectSubscribers σ' = projectSubscribers σ ∧
        (∀ c, c ≠ channel s → chans σ' !! c = chans σ !! c) ∧
        chans σ' !! channel s = afterNotify project fromID s <$> chans σ !! channel s.
Proof.
  intros Hopen [p Hp]. unfold notify, afterNotify. case_decide as Hfrom.
  { exists σ. split_and!; eauto. by destruct (chans σ !! channel s). }
  rewrite Hp. cbn [chans].
  destruct (chans σ !! channel s) as [ch|] eqn:Hch.
  2: { eexists. split; [done|]. cbn. rewrite lookup_insert_eq, Hch. eauto. }
  unfold selectSend. rewrite (Hopen Hfrom ch) by done.
  destruct (length (buffer ch) <? capacity ch)%nat eqn:Hroom.
  - eexists. split; [done|]. cbn -[Nat.ltb]. rewrite !lookup_insert_eq, Hroom.
    split_and!; [eauto|done| |done].
    intros c Hc. by rewrite lookup_insert_ne.
  - eexists. split; [done|]. cbn -[Nat.ltb]. rewrite lookup_insert_eq, Hch, Hroom. eauto.
Qed.

Lemma notifyAll_open project fromID subscribers σ :
  NoDup (channel <$> subscribers) →
  (∀ s ch, s ∈ subscribers → sockedID s ≠ fromID →
           chans σ !! channel s = Some ch → closed ch = false) →
  is_Some (projects σ !! project) →
  ∃ σ', notifyAll project fromID subscribers σ = Done σ' ∧
        is_Some (projects σ' !! project) ∧
        projectSubscribers σ' = projectSubscribers σ ∧
        (∀ c, c ∉ (channel <$> subscribers) → chans σ' !! c = chans σ !! c) ∧
        (∀ s, s ∈ subscribers →
              chans σ' !! channel s
              = afterNotify project fromID s <$> chans σ !! channel s).
Proof.
  revert σ. induction subscribers as [|s l IH]; intros σ Hnd Hopen Hp.
  { exists σ. split_and!; try done. intros s Hs. by apply elem_of_nil in Hs. }
  rewrite fmap_cons in Hnd. apply NoDup_cons in Hnd as [Hs Hnd].
  destruct (notify_open project fromID s σ) as (σ1 & Hn & Hp1 & Hr1 & Hother & Hself);
    [intros; eapply Hopen; eauto; set_solver|done|].
  assert (∀ s', s' ∈ l → chans σ1 !! channel s' = chans σ !! channel s') as Hrest.
  { intros s' Hs'. apply Hother. intros Heq. apply Hs. rewrite <- Heq.
    by apply list_elem_of_fmap_2. }
  destruct (IH σ1) as (σ' & Hall & Hp' & Hr' & Hout & Hin); [done| |done|].
  { intros s' ch Hs' Hne Hch. rewrite Hrest in Hch by done.
    eapply Hopen; eauto. set_solver. }
  exists σ'. rewrite notifyAll_cons, Hn. cbn [andThen].
  split_and!; [done|done|congruence| |].
  - intros c Hc. rewrite Hout by set_solver. apply Hother. set_solver.
  - intros s' [->|Hs']%elem_of_cons.
    + by rewrite Hout.
    + by rewrite Hin, Hrest.
Qed.

(** Where no channel is closed. Every send of a broadcast goes to a
    subscriber of the document whose token differs from the origin token, in every registry state and
    whether or not the call completes. When the channels of the document's
    subscribers are pairwise distinct, none of the non-origin ones is closed
    and [project] points to a record, the call returns; it leaves the channel
    of a subscriber with the origin token as it was, and appends the update
    to the channel of every other subscriber that can accept a value. *)
Theorem broadcast_skips_origin_reaches_others projectID project fromID σ :
  (∃ new,
     sent (stateOf (broadcastProjectUpdate projectID project fromID σ)) = sent σ ++ new ∧
     ∀ d, d ∈ new →
          recipient d ∈ subscribersOf σ projectID ∧
          sockedID (recipient d) ≠ fromID ∧ update d = project) ∧
  (NoDup (channel <$> subscribersOf σ projectID) →
   (∀ s ch, s ∈ subscribersOf σ projectID → sockedID s ≠ fromID →
            chans σ !! channel s = Some ch → closed ch = false) →
   is_Some (projects σ !! project) →
   ∃ σ', broadcastProjectUpdate projectID project fromID σ = Done σ' ∧
     ∀ s ch, s ∈ subscribersOf σ projectID → chans σ !! channel s = Some ch →
       (sockedID s = fromID → chans σ' !! channel s = Some ch) ∧
       (sockedID s ≠ fromID → canAccept ch →
          chans σ' !! channel s
          = Some {| buffer := buffer ch ++ [project]; capacity := capacity ch;
                    closed := false |})).
Proof.
  split.
  - destruct (broadcast_sent projectID project fromID σ) as (new & Hs & Hf).
    exists new. split; [done|]. intros d Hd.
    rewrite Forall_forall in Hf. destruct (Hf d Hd) as (? & ? & ? & _). done.
  - unfold broadcastProjectUpdate, subscribersOf.
    destruct (projectSubscribers σ !! projectID) as [l|]; cbn [default].
    2: { intros _ _ _. exists σ. split; [done|]. intros s ch Hs. by apply elem_of_nil in Hs. }
    intros Hnd Hopen Hp.
    destruct (notifyAll_open project fromID l σ) as (σ' & Hall & _ & _ & _ & Hin);
      [done..|].
    exists σ'. split; [done|]. intros s ch Hs Hch.
    rewrite (Hin s Hs), Hch. unfold afterNotify. cbn -[Nat.ltb]. split.
    + intros Heq. by rewrite decide_True.
    + intros Hne [_ Hroom]. rewrite decide_False by done.
      by rewrite (proj2 (Nat.ltb_lt _ _) Hroom).
Qed.

Lemma broadcast_skips_origin_reaches_others_witness :
  ∃ σ', broadcastProjectUpdate "p" 0 tokenA twoSubscribers = Done σ' ∧
    ∀ s ch, s ∈ subscribersOf twoSubscribers "p" →
      chans twoSubscribers !! channel s = Some ch →
      (sockedID s = tokenA → chans σ' !! channel s = Some ch) ∧
      (sockedID s ≠ tokenA → canAccept ch →
         chans σ' !! channel s
         = Some {| buffer := buffer ch ++ [0%nat]; capacity := capacity ch;
                   closed := false |}).
Proof.
  apply (broadcast_skips_origin_reaches_others "p" 0 tokenA twoSubscribers).
  - vm_compute. apply NoDup_cons. split; [set_solver|apply NoDup_singleton].
  - intros s ch Hs _. vm_compute in Hs.
    apply elem_of_cons in Hs as [->|Hs]; [|apply list_elem_of_singleton in Hs as ->];
      vm_compute; by intros [= <-].
  - by eexists.
Defined.

Lemma newlySent_addressedTo projectID project fromID σ :
  Forall (addressedTo project fromID (subscribersOf σ projectID))
         (newlySent projectID project fromID σ).
Proof.
  destruct (broadcast_sent projectID project fromID σ) as (new & Hs & Hf).
  unfold newlySent. by rewrite Hs, drop_app_length.
Qed.

(** The record delivered to the second subscriber carries that subscriber's
    token, not the origin token of the first. *)
Lemma delivered_record_carries_recipient_token :
  ∃ d, d ∈ newlySent "p" 0 tokenA twoSubscribers ∧
       SocketID (carried d) = tokenB ∧
       SocketID (carried d) ≠ tokenA.
Proof.
  exists (mkDelivery (mkProjectSubscriber tokenB 1) 0
            (mkProjectSubscription "p" "[]" tokenB)).
  split_and!; [by left|done|done].
Qed.

(** The same on the history of sends. Every record a broadcast sends carries, when it is sent,
    the token of the subscriber it is sent to; that subscriber is registered
    for the document and its token is not the origin token. The pointer sent
    is the one passed to the call. *)
Theorem delivered_record_carries_own_token projectID project fromID σ :
  Forall (λ d, SocketID (carried d) = sockedID (recipient d) ∧
               recipient d ∈ subscribersOf σ projectID ∧
               SocketID (carried d) ≠ fromID ∧
               update d = project)
         (newlySent projectID project fromID σ).
Proof.
  eapply Forall_impl; [apply newlySent_addressedTo|].
  intros d (Hin & Hne & Hup & Hown). split_and!; try done. by rewrite Hown.
Qed.

(** All recipients share the one record: once the call has returned, it
    holds the token of the last subscriber the loop wrote. *)
Example broadcast_shares_one_record :
  ∃ σ', broadcastProjectUpdate "p" 0 tokenA threeSubscribers = Done σ' ∧
        buffer <$> chans σ' !! 1%nat = Some [0%nat] ∧
        buffer <$> chans σ' !! 2%nat = Some [0%nat] ∧
        SocketID <$> projects σ' !! 0%nat = Some tokenC.
Proof. eexists. split; [reflexivity|]. by vm_compute. Qed.

Lemma notify_closed_panics project fromID s σ ch :
  sockedID s ≠ fromID →
  is_Some (projects σ !! project) →
  chans σ !! channel s = Some ch → closed ch = true →
  ∃ σ', notify project fromID s σ = Panic σ' "send on closed channel".
Proof.
  intros Hne [p Hp] Hch Hclosed. unfold notify.
  rewrite decide_False by done. rewrite Hp. cbn [chans]. rewrite Hch.
  unfold selectSend. rewrite Hclosed. by eexists.
Qed.

(** [C5] A registered subscriber whose channel is closed makes the broadcast
    panic on the send, and the subscriber after it is not served: the channel
    of the third subscriber could accept the update and stays empty. *)
Theorem broadcast_to_closed_channel_panics :
  ∃ σ', broadcastProjectUpdate "p" 0 tokenA closedSubscriber
        = Panic σ' "send on closed channel" ∧
        closed <$> chans closedSubscriber !! 1%nat = Some true ∧
        chans closedSubscriber !! 2%nat = Some (mkChan [] 1 false) ∧
        chans σ' !! 2%nat = Some (mkChan [] 1 false).
Proof. eexists. split; [reflexivity|]. by vm_compute. Qed.

(** A full channel is skipped, and the broadcast goes on to the next
    subscriber. *)
Example broadcast_skips_full_channel :
  ∃ σ1 σ2,
    broadcastProjectUpdate "p" 0 tokenA twoSubscribers = Done σ1 ∧
    broadcastProjectUpdate "p" 0 tokenA (Subscribe "p" 3 σ1).1 = Done σ2 ∧
    buffer <$> chans σ2 !! 1%nat = Some [0%nat] ∧
    buffer <$> chans σ2 !! 2%nat = Some [0%nat] ∧
    length (newlySent "p" 0 tokenA (Subscribe "p" 3 σ1).1) = 1%nat.
Proof. do 2 eexists. split; [reflexivity|]. split; [reflexivity|]. by vm_compute. Qed.

Example broadcast_run :
  sent (stateOf (broadcastProjectUpdate "p" 0 tokenA twoSubscribers))
  = [mkDelivery (mkProjectSubscriber tokenB 1) 0
       (mkProjectSubscription "p" "[]" tokenB)].
Proof. reflexivity. Qed.

End broadcast.

Section registry.
Import Server.
Implicit Types (σ : State) (s subscriber : ProjectSubscriber).
Implicit Types (subscribers l : list ProjectSubscriber).
Implicit Types (projectID socketID : string) (c : loc).

Lemma findSubscriber_Some socketID l i j s :
  findSubscriber socketID l i = Some (j, s) →
  ∃ k, j = (i + k)%nat ∧ l !! k = Some s ∧ sockedID s = socketID.
Proof.
  revert i. induction l as [|x l IH]; intros i; cbn; [done|].
  case_decide as Hx.
  - intros [= <- <-]. exists 0%nat. split; [lia|done].
  - intros H. destruct (IH _ H) as (k & -> & Hk & Hs).
    exists (S k). split; [lia|done].
Qed.

Lemma findSubscriber_None socketID l i :
  findSubscriber socketID l i = None ↔ ∀ s, s ∈ l → sockedID s ≠ socketID.
Proof.
  revert i. induction l as [|x l IH]; intros i; cbn.
  - split; [|done]. intros _ s Hs. by apply elem_of_nil in Hs.
  - case_decide as Hx.
    + split; [done|]. intros H. exfalso. apply (H x); [by left|done].
    + rewrite IH. split.
      * intros H s [->|Hs]%elem_of_cons; [done|by apply H].
      * intros H s Hs. apply H. by right.
Qed.

Lemma subscribersOf_Some σ projectID l :
  projectSubscribers σ !! projectID = Some l → subscribersOf σ projectID = l.
Proof. unfold subscribersOf. by intros ->. Qed.

Lemma subscribersOf_nonempty σ projectID :
  subscribersOf σ projectID ≠ [] →
  projectSubscribers σ !! projectID = Some (subscribersOf σ projectID).
Proof. unfold subscribersOf. by destruct (projectSubscribers σ !! projectID). Qed.

(** The invariant in the form "a key is present exactly when its list is
    non-empty". *)
Lemma registryInv_iff σ :
  registryInv σ ↔
  ∀ projectID, is_Some (projectSubscribers σ !! projectID)
               ↔ subscribersOf σ projectID ≠ [].
Proof.
  split.
  - intros Hinv projectID. split.
    + intros [l Hl]. rewrite (subscribersOf_Some _ _ _ Hl). by eapply Hinv.
    + intros Hne. rewrite subscribersOf_nonempty by done. by eexists.
  - intros H projectID l Hl. rewrite <- (subscribersOf_Some _ _ _ Hl).
    apply H. by eexists.
Qed.

Lemma subscribeToProject_registryInv projectID c draw σ :
  registryInv σ → registryInv (subscribeToProject projectID c draw σ).1.
Proof.
  intros Hinv q l. cbn. rewrite lookup_insert. case_decide.
  - intros [= <-]. by destruct (subscribersOf σ projectID).
  - apply Hinv.
Qed.

Lemma NoDup_lookup_delete {A} (xs : list A) k x :
  NoDup xs → xs !! k = Some x → x ∉ delete k xs.
Proof.
  intros Hnd Hk. rewrite <- (take_drop_middle xs k x Hk) in Hnd.
  apply NoDup_app in Hnd as (_ & Hdisj & Hnd). apply NoDup_cons in Hnd as [Hx _].
  rewrite delete_take_drop. intros [Hin|Hin]%elem_of_app; [|done].
  apply (Hdisj x Hin). by left.
Qed.

(** Removing subscribers and closing a channel none of the remaining ones
    uses keeps the channels owned. *)
Lemma channelsOwned_shrink σ σ' c :
  channelsOwned σ →
  (∀ q l', projectSubscribers σ' !! q = Some l' →
     ∃ l, projectSubscribers σ !! q = Some l ∧ l' `sublist_of` l ∧
          c ∉ (channel <$> l')) →
  (∀ c', c' ≠ c → chans σ' !! c' = chans σ !! c') →
  channelsOwned σ'.
Proof.
  intros [Hown Hcross] Hreg Hch. split.
  - intros q l' Hl'. destruct (Hreg q l' Hl') as (l & Hl & Hsub & Hc).
    destruct (Hown q l Hl) as [Hopen Hnd]. split.
    + intros s Hs. rewrite Hch.
      * apply Hopen. by eapply elem_of_sublist.
      * intros Heq. apply Hc. rewrite <- Heq. by apply list_elem_of_fmap_2.
    + eapply (sublist_NoDup _ (channel <$> l)); [done|by apply fmap_sublist].
  - intros p1 p2 l1' l2' s1 s2 Hne Hl1 Hl2 Hs1 Hs2.
    destruct (Hreg p1 l1' Hl1) as (l1 & Hl1o & Hsub1 & _).
    destruct (Hreg p2 l2' Hl2) as (l2 & Hl2o & Hsub2 & _).
    eapply (Hcross p1 p2 l1 l2); eauto; by eapply elem_of_sublist.
Qed.

(** On a registry that satisfies both invariants [unsubscribeFromProject]
    returns and keeps them. *)
Lemma unsubscribe_preserves projectID socketID σ :
  registryInv σ → channelsOwned σ →
  ∃ σ', unsubscribeFromProject projectID socketID σ = Done σ' ∧
        registryInv σ' ∧ channelsOwned σ'.
Proof.
  intros Hinv Hown. unfold unsubscribeFromProject.
  destruct (findSubscriber socketID (subscribersOf σ projectID) 0) as [[i s]|] eqn:Hfind.
  - apply findSubscriber_Some in Hfind as (k & -> & Hk & _). cbn [Nat.add].
    rewrite <- delete_take_drop.
    assert (subscribersOf σ projectID ≠ []) as Hne by (by intros Heq; rewrite Heq in Hk).
    pose proof (subscribersOf_nonempty _ _ Hne) as Hl.
    set (l := subscribersOf σ projectID) in *.
    destruct Hown as [Hown Hcross].
    destruct (Hown projectID l Hl) as [Hopen Hnd].
    destruct (Hopen s) as (ch & Hch & Hclosed); [by eapply list_elem_of_lookup_2|].
    unfold close. cbn [chans setSubscribers]. rewrite Hch, Hclosed. cbn [andThen].
    assert (channel s ∉ (channel <$> delete k l)) as Hfresh.
    { rewrite list_fmap_delete. apply NoDup_lookup_delete; [done|].
      by rewrite list_lookup_fmap, Hk. }
    match goal with |- context [if ?b then Done ?a else Done ?b'] =>
      exists (if b then a else b') end.
    split; [by case_match|]. split.
    + unfold subscribersOf. cbn. rewrite lookup_insert_eq. cbn.
      destruct (delete k l) as [|x l'] eqn:Hdel; cbn.
      * intros q lq. cbn. rewrite lookup_delete, lookup_insert.
        repeat case_decide; try done. apply Hinv.
      * intros q lq. cbn. rewrite lookup_insert.
        case_decide; [by intros [= <-]|apply Hinv].
    + eapply (channelsOwned_shrink σ _ (channel s)); [by split| |].
      * intros q lq Hlq.
        assert (projectSubscribers σ !! q = Some lq ∧ q ≠ projectID
                ∨ q = projectID ∧ lq = delete k l) as [[Hq Hne']|[-> ->]].
        { revert Hlq. case_match; cbn.
          - rewrite lookup_delete, lookup_insert. repeat case_decide; naive_solver.
          - rewrite lookup_insert. case_decide; naive_solver. }
        -- exists lq. split_and!; [done|done|].
           intros (s2 & Heq & Hs2)%list_elem_of_fmap.
           eapply (Hcross projectID q l lq s s2); eauto.
           by eapply list_elem_of_lookup_2.
        -- exists l. split_and!; [done|apply sublist_delete|done].
      * intros c' Hc'. case_match; cbn; by rewrite lookup_insert_ne.
  - cbn [andThen]. exists σ.
    destruct (subscribersOf σ projectID) as [|x l] eqn:Hl; cbn.
    + split; [|done]. f_equal. unfold deleteSubscribers.
      rewrite delete_id; [by destruct σ|].
      destruct (projectSubscribers σ !! projectID) as [l|] eqn:Hp; [|done].
      rewrite (subscribersOf_Some _ _ _ Hp) in Hl. subst. by destruct (Hinv _ _ Hp).
    + done.
Qed.

(** The registry invariant does not depend on how channels are used: any
    call that returns keeps it. *)
Lemma unsubscribe_registryInv projectID socketID σ σ' :
  registryInv σ →
  unsubscribeFromProject projectID socketID σ = Done σ' →
  registryInv σ'.
Proof.
  intros Hinv. unfold unsubscribeFromProject.
  destruct (findSubscriber socketID (subscribersOf σ projectID) 0) as [[i s]|].
  - unfold close. cbn [chans setSubscribers].
    destruct (chans σ !! channel s) as [ch|]; [|done].
    destruct (closed ch); [done|]. cbn [andThen].
    unfold subscribersOf. cbn. rewrite lookup_insert_eq. cbn.
    destruct (take i _ ++ drop (S i) _) as [|x l'] eqn:Hdel; cbn.
    + intros [= <-] q lq. cbn. rewrite lookup_delete, lookup_insert.
      repeat case_decide; try done. apply Hinv.
    + intros [= <-] q lq. cbn. rewrite lookup_insert.
      case_decide; [by intros [= <-]|apply Hinv].
  - cbn [andThen]. case_match; intros [= <-]; [|done].
    intros q lq. cbn. rewrite lookup_delete. case_decide; [done|apply Hinv].
Qed.

Lemma unsubscribe_absent projectID socketID σ :
  registryInv σ →
  (∀ s, s ∈ subscribersOf σ projectID → sockedID s ≠ socketID) →
  unsubscribeFromProject projectID socketID σ = Done σ.
Proof.
  intros Hinv Habs. unfold unsubscribeFromProject.
  rewrite (proj2 (findSubscriber_None socketID _ 0) Habs). cbn [andThen].
  destruct (subscribersOf σ projectID) as [|x l] eqn:Hl; cbn; [|done].
  f_equal. unfold deleteSubscribers.
  rewrite delete_id; [by destruct σ|].
  destruct (projectSubscribers σ !! projectID) as [l|] eqn:Hp; [|done].
  rewrite (subscribersOf_Some _ _ _ Hp) in Hl. subst. by destruct (Hinv _ _ Hp).
Qed.

Lemma unsubscribe_last projectID s σ :
  channelsOwned σ →
  projectSubscribers σ !! projectID = Some [s] →
  ∃ σ', unsubscribeFromProject projectID (sockedID s) σ = Done σ' ∧
        projectSubscribers σ' !! projectID = None.
Proof.
  intros [Hown _] Hl. unfold unsubscribeFromProject.
  rewrite (subscribersOf_Some _ _ _ Hl). cbn [findSubscriber].
  rewrite decide_True by done. cbn [take drop app].
  destruct (Hown _ _ Hl) as [Hopen _].
  destruct (Hopen s) as (ch & Hch & Hclosed); [by left|].
  unfold close. cbn [chans setSubscribers]. rewrite Hch, Hclosed. cbn [andThen].
  unfold subscribersOf. cbn. rewrite lookup_insert_eq. cbn.
  eexists. split; [done|]. cbn. by rewrite lookup_delete_eq.
Qed.

Lemma channelsOwned_allocated σ projectID l s :
  channelsOwned σ → projectSubscribers σ !! projectID = Some l → s ∈ l →
  channel s ∈ dom (chans σ).
Proof.
  intros [Hown _] Hl Hs. destruct (Hown _ _ Hl) as [Hopen _].
  destruct (Hopen s Hs) as (ch & Hch & _). apply elem_of_dom. by eexists.
Qed.

Lemma Subscribe_preserves projectID draw σ :
  registryInv σ → channelsOwned σ →
  registryInv (Subscribe projectID draw σ).1 ∧
  channelsOwned (Subscribe projectID draw σ).1.
Proof.
  intros Hinv Hown. unfold Subscribe, make. cbn [fst snd].
  set (c := fresh (dom (chans σ))).
  assert (c ∉ dom (chans σ)) as Hc by apply is_fresh.
  split; [by apply subscribeToProject_registryInv|].
  assert (∀ q l s, projectSubscribers σ !! q = Some l → s ∈ l → channel s ≠ c) as Hold.
  { intros q l s Hl Hs Heq. apply Hc. rewrite <- Heq.
    by eapply channelsOwned_allocated. }
  set (new := {| sockedID := generateRandom8DigitString draw; channel := c |}).
  assert (∀ q l', projectSubscribers (subscribeToProject projectID c draw
                     (setChan c (mkChan [] 1 false) σ)).1 !! q = Some l' →
            (q = projectID ∧ l' = subscribersOf σ projectID ++ [new]) ∨
            (q ≠ projectID ∧ projectSubscribers σ !! q = Some l')) as Hcases.
  { intros q l'. cbn. rewrite lookup_insert. case_decide; naive_solver. }
  assert (∀ s, s ∈ subscribersOf σ projectID → channel s ≠ c) as Hold'.
  { intros s Hs. destruct (projectSubscribers σ !! projectID) as [l|] eqn:Hl.
    - rewrite (subscribersOf_Some _ _ _ Hl) in Hs. by eapply Hold.
    - unfold subscribersOf in Hs. rewrite Hl in Hs. by apply elem_of_nil in Hs. }
  destruct Hown as [Hown Hcross]. split.
  - intros q l' [[-> ->]|[Hne Hl]]%Hcases.
    + split.
      * intros s [Hs| ->%list_elem_of_singleton]%elem_of_app; cbn.
        -- rewrite lookup_insert_ne by (by apply not_eq_sym, Hold').
           destruct (subscribersOf_nonempty σ projectID) as [];
             [by intros Heq; rewrite Heq in Hs; apply elem_of_nil in Hs|].
           destruct (Hown projectID (subscribersOf σ projectID)) as [Hopen _];
             [by apply subscribersOf_nonempty; intros Heq; rewrite Heq in Hs;
              apply elem_of_nil in Hs|]. by apply Hopen.
        -- rewrite lookup_insert_eq. by eexists.
      * rewrite fmap_app. apply NoDup_app. split_and!.
        -- destruct (projectSubscribers σ !! projectID) as [l|] eqn:Hl.
           ++ rewrite (subscribersOf_Some _ _ _ Hl). by apply (Hown _ _ Hl).
           ++ unfold subscribersOf. rewrite Hl. apply NoDup_nil_2.
        -- intros x (s & -> & Hs)%list_elem_of_fmap Hx. cbn in Hx.
           apply list_elem_of_singleton in Hx. by eapply Hold'.
        -- apply NoDup_singleton.
    + destruct (Hown _ _ Hl) as [Hopen Hnd]. split; [|done].
      intros s Hs. cbn. rewrite lookup_insert_ne by (by apply not_eq_sym; eapply Hold).
      by apply Hopen.
  - intros p1 p2 l1 l2 s1 s2 Hne [[-> ->]|[Hne1 Hl1]]%Hcases
           [[-> ->]|[Hne2 Hl2]]%Hcases Hs1 Hs2;
      [done| | |by eapply (Hcross p1 p2 l1 l2)].
    + apply elem_of_app in Hs1 as [Hs1| ->%list_elem_of_singleton].
      * eapply (Hcross projectID p2); eauto.
        apply subscribersOf_nonempty. intros Heq. rewrite Heq in Hs1.
        by apply elem_of_nil in Hs1.
      * cbn. by apply not_eq_sym; eapply Hold.
    + apply elem_of_app in Hs2 as [Hs2| ->%list_elem_of_singleton].
      * eapply (Hcross p1 projectID); eauto.
        apply subscribersOf_nonempty. intros Heq. rewrite Heq in Hs2.
        by apply elem_of_nil in Hs2.
      * cbn. by eapply Hold.
Qed.

Lemma NewResolver_invariants : registryInv NewResolver ∧ channelsOwned NewResolver.
Proof.
  split; [by intros q l|]. split.
  - by intros q l.
  - by intros p1 p2 l1 l2 s1 s2 _ Hl1.
Qed.

Lemma runOps_cons x ops σ :
  runOps (x :: ops) σ = andThen (step x σ) (runOps ops).
Proof.
  unfold runOps. cbn [foldl andThen].
  destruct (step x σ) as [σ1|σ1 reason]; [done|].
  cbn [andThen]. induction ops as [|y l IH]; [done|]. by cbn.
Qed.

Lemma runOps_preserves ops σ :
  registryInv σ → channelsOwned σ →
  ∃ σ', runOps ops σ = Done σ' ∧ registryInv σ' ∧ channelsOwned σ'.
Proof.
  revert σ. induction ops as [|x ops IH]; intros σ Hinv Hown.
  { by exists σ. }
  rewrite runOps_cons. destruct x as [projectID draw|projectID socketID]; cbn [step].
  - destruct (Subscribe_preserves projectID draw σ) as [? ?]; [done..|].
    cbn [andThen]. by apply IH.
  - destruct (unsubscribe_preserves projectID socketID σ) as (σ1 & -> & ? & ?); [done..|].
    cbn [andThen]. by apply IH.
Qed.

(** [C4] Every sequence of Subscribe and Unsubscribe operations on a new
    resolver runs to completion, and in the registry it reaches a document ID
    is a key exactly when its subscriber list is non-empty. In such a
    registry, unsubscribing the only subscriber of a document deletes the
    document's entry, and unsubscribing a token that no subscriber of the
    document has leaves the state as it is. *)
Theorem registry_invariant_preserved (ops : list op) :
  ∃ σ, runOps ops NewResolver = Done σ ∧
    (∀ projectID, is_Some (projectSubscribers σ !! projectID)
                  ↔ subscribersOf σ projectID ≠ []) ∧
    (∀ projectID s,
       projectSubscribers σ !! projectID = Some [s] →
       ∃ σ', unsubscribeFromProject projectID (sockedID s) σ = Done σ' ∧
             projectSubscribers σ' !! projectID = None) ∧
    (∀ projectID socketID,
       (∀ s, s ∈ subscribersOf σ projectID → sockedID s ≠ socketID) →
       unsubscribeFromProject projectID socketID σ = Done σ).
Proof.
  destruct NewResolver_invariants as [Hinv Hown].
  destruct (runOps_preserves ops NewResolver Hinv Hown) as (σ & Hrun & Hinv' & Hown').
  exists σ. split_and!.
  - done.
  - by apply registryInv_iff.
  - intros projectID s. by apply unsubscribe_last.
  - intros projectID socketID. by apply unsubscribe_absent.
Qed.

Example registry_run :
  ∃ σ, runOps [OpSubscribe "p" 1; OpSubscribe "p" 2; OpSubscribe "q" 3;
               OpUnsubscribe "p" tokenA; OpUnsubscribe "q" tokenC;
               OpUnsubscribe "q" tokenC] NewResolver = Done σ ∧
       projectSubscribers σ = {[ "p" := [mkProjectSubscriber tokenB 1] ]} ∧
       closed <$> chans σ !! 0%nat = Some true ∧
       closed <$> chans σ !! 1%nat = Some false ∧
       closed <$> chans σ !! 2%nat = Some true.
Proof. eexists. split; [reflexivity|]. by vm_compute. Qed.

End registry.

(** * Further properties of [mergeElements] *)

Section merge_more.
Implicit Types (current incoming lastSynced xs ys : Elements).
Implicit Types (el c m : OrderedExcalidrawElement) (k : string).

Lemma filter_none {A} (P : A → Prop) `{∀ x, Decision (P x)} (l : list A) :
  (∀ x, x ∈ l → ¬ P x) → filter P l = [].
Proof.
  induction l as [|x l IH]; intros Hl; [done|].
  rewrite filter_cons_False by (apply Hl; by left). apply IH.
  intros y Hy. apply Hl. by right.
Qed.

Lemma filter_all {A} (P : A → Prop) `{∀ x, Decision (P x)} (l : list A) :
  (∀ x, x ∈ l → P x) → filter P l = l.
Proof.
  induction l as [|x l IH]; intros Hl; [done|].
  rewrite filter_cons_True by (apply Hl; by left). f_equal. apply IH.
  intros y Hy. apply Hl. by right.
Qed.

Lemma get_app xs ys k :
  get (xs ++ ys) k = match get ys k with Some y => Some y | None => get xs k end.
Proof.
  induction ys as [|y ys IH] using rev_ind.
  - rewrite app_nil_r. unfold get at 2. cbn. by rewrite lookup_empty.
  - rewrite app_assoc, !get_snoc. case_decide; [done|apply IH].
Qed.

Lemma pick_no_local_change lastSynced el : pick lastSynced lastSynced el = el.
Proof.
  unfold pick. destruct (get lastSynced (id el)) as [l|]; [|done].
  by assert (version l >? version l = false) as -> by lia.
Qed.

Lemma pick_elem_of current lastSynced el :
  pick current lastSynced el = el ∨ pick current lastSynced el ∈ current.
Proof.
  unfold pick. destruct (get current (id el)) as [c|] eqn:Hc; [|by left].
  destruct (get lastSynced (id el)); [|by left].
  case_match; [right|by left]. by apply get_Some_elem_of in Hc as [? _].
Qed.

Lemma pick_version current lastSynced el :
  version el ≤ version (pick current lastSynced el).
Proof.
  unfold pick. destruct (get current (id el)) as [c|]; [|done].
  destruct (get lastSynced (id el)); [|done].
  destruct (version c >=? version el) eqn:Hge; rewrite ?andb_true_r, ?andb_false_r;
    [case_match; [lia|done]|done].
Qed.

(** A client without local changes (its scene is the last-synced snapshot)
    adopts the incoming snapshot as it is. *)
Theorem merge_without_local_changes incoming lastSynced :
  mergeElements lastSynced incoming lastSynced = incoming.
Proof.
  destruct (decide (lastSynced = [])) as [->|Hne]; [done|].
  rewrite mergeElements_unfold by done.
  rewrite filter_none, app_nil_r.
  - rewrite <- (list_fmap_id incoming) at 2. apply list_fmap_ext.
    intros _ el _. apply pick_no_local_change.
  - intros el Hel [_ Hn]. apply Hn. by apply list_elem_of_fmap_2.
Qed.

(** Receiving the scene itself (an echo of the client's own state) leaves
    the scene as it is, whatever was last synced. *)
Theorem merge_own_echo current lastSynced :
  NoDup (id <$> current) →
  mergeElements current current lastSynced = current.
Proof.
  intros Hnd. destruct (decide (lastSynced = [])) as [->|Hne]; [done|].
  rewrite mergeElements_unfold by done.
  rewrite filter_none, app_nil_r.
  - rewrite <- (list_fmap_id current) at 3. apply list_fmap_ext.
    intros i el Hi. unfold pick.
    rewrite (get_NoDup current el) by (done || by eapply list_elem_of_lookup_2).
    destruct (get lastSynced (id el)); [|done]. by case_match.
  - intros el Hel [Hn _]. apply Hn. by apply list_elem_of_fmap_2.
Qed.

Lemma merge_own_echo_witness :
  mergeElements [X_v2; Y_v1] [X_v2; Y_v1] [X_v1] = [X_v2; Y_v1].
Proof.
  apply (merge_own_echo [X_v2; Y_v1] [X_v1]).
  cbn. apply NoDup_cons. split; [set_solver|apply NoDup_singleton].
Defined.

(** The merge invents nothing: every element of the result is, payload
    included, an element of [current] or of [incoming]. *)
Theorem merge_elements_come_from_inputs current incoming lastSynced :
  Forall (λ m, m ∈ current ∨ m ∈ incoming)
         (mergeElements current incoming lastSynced).
Proof.
  apply Forall_forall. intros m Hm.
  destruct (decide (lastSynced = [])) as [->|Hne]; [by right|].
  rewrite mergeElements_unfold in Hm by done.
  apply elem_of_app in Hm as [Hm|Hm].
  - apply list_elem_of_fmap in Hm as (el & -> & Hel).
    destruct (pick_elem_of current lastSynced el) as [->|?]; [by right|by left].
  - left. by apply list_elem_of_filter in Hm as [_ ?].
Qed.

(** A strictly newer incoming version always wins: if [current] holds no
    copy of the element at position [i] of [incoming], or an older one, the
    result has the incoming element at position [i]. *)
Theorem merge_newer_incoming_wins current incoming lastSynced i incomingEl :
  incoming !! i = Some incomingEl →
  (∀ c, get current (id incomingEl) = Some c → version c < version incomingEl) →
  mergeElements current incoming lastSynced !! i = Some incomingEl.
Proof.
  intros Hi Hold. destruct (decide (lastSynced = [])) as [->|Hne]; [done|].
  rewrite mergeElements_unfold by done.
  rewrite lookup_app_l by (rewrite length_fmap; by eapply lookup_lt_Some).
  rewrite list_lookup_fmap, Hi. cbn. f_equal. unfold pick.
  destruct (get current (id incomingEl)) as [c|]; [|done].
  destruct (get lastSynced (id incomingEl)); [|done].
  specialize (Hold c eq_refl).
  assert (version c >=? version incomingEl = false) as -> by lia.
  by rewrite andb_false_r.
Qed.

Lemma merge_newer_incoming_wins_witness :
  mergeElements [X_v2] [X_v3] [X_v1] !! 0%nat = Some X_v3.
Proof.
  apply (merge_newer_incoming_wins [X_v2] [X_v3] [X_v1] 0 X_v3); [done|].
  intros c. vm_compute. intros [= <-]. done.
Defined.

(** Merging the same incoming snapshot a second time changes no ID and no
    version: the second merge runs on the first result with [incoming] as
    last-synced. (With a non-empty last-synced and an empty [incoming] the
    first merge keeps the brand-new local elements and the second, being a
    first sync, drops them; hence the side condition.) *)
Theorem merge_twice_same_versions current incoming lastSynced :
  NoDup (id <$> incoming) →
  incoming ≠ [] ∨ lastSynced = [] →
  idVersions (mergeElements (mergeElements current incoming lastSynced)
                incoming incoming)
  = idVersions (mergeElements current incoming lastSynced).
Proof.
  intros Hnd Hside.
  destruct (decide (lastSynced = [])) as [->|Hne].
  { rewrite mergeElements_first_sync. by rewrite merge_without_local_changes. }
  destruct Hside as [Hi|?]; [|done].
  rewrite (mergeElements_unfold current) by done.
  pose (chosen := pick current lastSynced <$> incoming).
  change (pick current lastSynced <$> incoming) with chosen.
  set (new := filter (brandNew incoming lastSynced) current).
  rewrite mergeElements_unfold by done.
  assert (∀ el, el ∈ new → id el ∉ (id <$> incoming)) as Hnew.
  { intros el Hel. by apply list_elem_of_filter in Hel as [[? _] _]. }
  rewrite filter_app, (filter_none _ chosen), (filter_all _ new), app_nil_l.
  - unfold idVersions. rewrite !fmap_app. f_equal.
    unfold chosen at 2. rewrite <- !list_fmap_compose. apply list_fmap_ext.
    intros j el Hj. cbn.
    assert (el ∈ incoming) as Hel by (by eapply list_elem_of_lookup_2).
    assert (get (chosen ++ new) (id el) = Some (pick current lastSynced el)) as Hget.
    { rewrite get_app.
      assert (get new (id el) = None) as ->.
      { apply get_None. intros (x & Hid & Hx)%list_elem_of_fmap.
        apply (Hnew x Hx). rewrite <- Hid. by apply list_elem_of_fmap_2. }
      rewrite <- (pick_id current lastSynced el). apply get_NoDup.
      - unfold chosen. by rewrite pick_ids.
      - by apply list_elem_of_fmap_2. }
    pose proof (pick_version current lastSynced el) as Hv.
    pose proof (pick_id current lastSynced el) as Hid.
    revert Hget Hv Hid. generalize (pick current lastSynced el). intros p Hget Hv Hid.
    unfold pick. rewrite Hget, (get_NoDup incoming el) by done.
    destruct (version p >? version el) eqn:Hgt; cbn.
    + by assert (version p >=? version el = true) as -> by lia.
    + rewrite Hid. f_equal. lia.
  - intros el Hel. split; by apply Hnew.
  - intros el Hel [Hn _]. apply Hn. unfold chosen in Hel.
    rewrite <- (pick_ids current lastSynced). by apply list_elem_of_fmap_2.
Qed.

Lemma merge_twice_same_versions_witness :
  idVersions (mergeElements (mergeElements [X_v2; Y_v1] [X_v1] [X_v1]) [X_v1] [X_v1])
  = idVersions (mergeElements [X_v2; Y_v1] [X_v1] [X_v1]).
Proof.
  apply (merge_twice_same_versions [X_v2; Y_v1] [X_v1] [X_v1]).
  - apply NoDup_singleton.
  - by left.
Defined.

End merge_more.

(** * Change detection *)

Section detect.
Implicit Types (s t : string) (c : ascii) (xs ys : Elements).

Lemma occurs_app c s t : occurs c (s +:+ t) ↔ occurs c s ∨ occurs c t.
Proof. induction s as [|a s IH]; simpl; [tauto|]. rewrite IH. tauto. Qed.

Lemma plainId_app s t : plainId s → plainId t → plainId (s +:+ t).
Proof. unfold plainId. rewrite !occurs_app. tauto. Qed.

Lemma plainId_digit x s : plainId s → plainId (String (pretty_N_char x) s).
Proof.
  intros [H1 H2]. unfold plainId, pretty_N_char. cbn.
  split; intros [Hc|Hc]; try done; by repeat case_match.
Qed.

Lemma plainId_pretty_N_go (x : N) s : plainId s → plainId (pretty_N_go x s).
Proof.
  revert s. induction (N.lt_wf_0 x) as [x _ IH]; intros s Hs.
  assert (x = 0 ∨ 0 < x)%N as [->|Hx] by lia; [by rewrite pretty_N_go_0|].
  rewrite pretty_N_go_step by done. apply IH; [by apply N.div_lt|].
  by apply plainId_digit.
Qed.

Lemma plainId_pretty_N (x : N) : plainId (pretty x).
Proof.
  unfold pretty, pretty_N. case_decide.
  - split; cbn; by intros [[=]|[]].
  - apply plainId_pretty_N_go. split; cbn; tauto.
Qed.

Lemma plainId_pretty_nat (n : nat) : plainId (pretty n).
Proof. apply plainId_pretty_N. Qed.

Lemma plainId_pretty_Z (z : Z) : plainId (pretty z).
Proof.
  destruct z as [|p|p]; unfold pretty, pretty_Z.
  - split; cbn; by intros [[=]|[]].
  - apply plainId_pretty_N.
  - apply plainId_app; [|apply plainId_pretty_N]. split; cbn; by intros [[=]|[]].
Qed.

(** Two strings cut at the first occurrence of a separator. *)
Lemma cut_at_separator c s1 s2 t1 t2 :
  ¬ occurs c s1 → ¬ occurs c s2 →
  s1 +:+ String c t1 = s2 +:+ String c t2 → s1 = s2 ∧ t1 = t2.
Proof.
  revert s2. induction s1 as [|a s1 IH]; intros [|b s2]; cbn; intros H1 H2 Heq.
  - by injection Heq.
  - injection Heq as <- _. tauto.
  - injection Heq as -> _. tauto.
  - injection Heq as -> Heq. destruct (IH s2) as [-> ->]; tauto.
Qed.

Lemma join_inj (items1 items2 : list string) :
  length items1 = length items2 →
  Forall (λ i, ¬ occurs ","%char i) items1 →
  Forall (λ i, ¬ occurs ","%char i) items2 →
  join "," items1 = join "," items2 → items1 = items2.
Proof.
  revert items2. induction items1 as [|x l1 IH]; intros [|y l2] Hlen H1 H2 Heq;
    try done.
  apply Forall_cons in H1 as [Hx H1]. apply Forall_cons in H2 as [Hy H2].
  destruct l1 as [|x' l1], l2 as [|y' l2]; try done.
  - cbn in Heq. by subst.
  - change (x +:+ String "," (join "," (x' :: l1))
            = y +:+ String "," (join "," (y' :: l2))) in Heq.
    apply cut_at_separator in Heq as [-> Heq]; [|done..].
    f_equal. apply IH; [cbn in *; lia|done..].
Qed.

Lemma hash_item_inj (el1 el2 : OrderedExcalidrawElement) :
  plainId (id el1) → plainId (id el2) →
  id el1 +:+ ":" +:+ pretty (version el1) = id el2 +:+ ":" +:+ pretty (version el2) →
  (id el1, version el1) = (id el2, version el2).
Proof.
  intros [H1 _] [H2 _] Heq.
  apply cut_at_separator in Heq as [-> Heq]; [|done..].
  by apply (inj pretty) in Heq as ->.
Qed.

(** The hash reads IDs and versions only. *)
Lemma hash_of_idVersions xs ys :
  idVersions xs = idVersions ys → getElementsHash xs = getElementsHash ys.
Proof.
  intros Heq. unfold getElementsHash.
  assert (length xs = length ys) as ->.
  { apply (f_equal length) in Heq. unfold idVersions in Heq.
    by rewrite !length_fmap in Heq. }
  do 3 f_equal.
  transitivity ((λ iv : string * Z, iv.1 +:+ ":" +:+ pretty iv.2) <$> idVersions xs).
  - unfold idVersions. by rewrite <- list_fmap_compose.
  - rewrite Heq. unfold idVersions. by rewrite <- list_fmap_compose.
Qed.

(** Change detection is exact on IDs and versions: two snapshots whose IDs
    contain neither [:] nor [,] have the same hash exactly when they list the
    same IDs at the same versions in the same order. The payload plays no
    part. *)
Theorem hash_detects_id_version_changes xs ys :
  Forall (λ el, plainId (id el)) xs →
  Forall (λ el, plainId (id el)) ys →
  getElementsHash xs = getElementsHash ys ↔ idVersions xs = idVersions ys.
Proof.
  intros Hxs Hys. split; [|apply hash_of_idVersions].
  unfold getElementsHash. intros Heq.
  apply cut_at_separator in Heq as [Hlen Heq];
    [|apply plainId_pretty_nat..].
  apply (inj pretty) in Hlen.
  apply join_inj in Heq.
  - revert ys Hys Hlen Heq. induction Hxs as [|x xs Hx Hxs IH];
      intros [|y ys] Hys Hlen Heq; try done.
    apply Forall_cons in Hys as [Hy Hys]. cbn in Heq. injection Heq as Hitem Heq.
    unfold idVersions. cbn. f_equal.
    + by apply hash_item_inj.
    + apply IH; [done|cbn in *; lia|done].
  - by rewrite !length_fmap.
  - apply Forall_fmap. eapply Forall_impl; [exact Hxs|]. intros el [_ Hc]. cbn.
    rewrite !occurs_app. cbn. destruct (plainId_pretty_Z (version el)) as [_ ?].
    intros [?|[[[=]|[]]|?]]; done.
  - apply Forall_fmap. eapply Forall_impl; [exact Hys|]. intros el [_ Hc]. cbn.
    rewrite !occurs_app. cbn. destruct (plainId_pretty_Z (version el)) as [_ ?].
    intros [?|[[[=]|[]]|?]]; done.
Qed.

Lemma hash_detects_id_version_changes_witness :
  getElementsHash [X_v1; Y_v1] = getElementsHash [mkElement "X" 1 "moved"; Y_v1]
  ↔ idVersions [X_v1; Y_v1] = idVersions [mkElement "X" 1 "moved"; Y_v1].
Proof.
  apply (hash_detects_id_version_changes [X_v1; Y_v1] [mkElement "X" 1 "moved"; Y_v1]).
  - repeat constructor; cbn; by intros [[=]|[]].
  - repeat constructor; cbn; by intros [[=]|[]].
Defined.

(** Without the restriction on IDs two different snapshots can share a
    hash. *)
Example hash_collision :
  getElementsHash [mkElement "a:1,b" 2 ""; mkElement "c" 3 ""]
  = getElementsHash [mkElement "a" 1 ""; mkElement "b:2,c" 3 ""].
Proof. reflexivity. Qed.

End detect.

(** * The handlers of [Project.tsx] *)

Section handlers.
Import Handlers.
Implicit Types (st : State) (elements incoming : Elements).

(** Once an edit has been seen, an [onChange] that carries the same IDs and
    versions (the same snapshot again, or one that differs in payload only)
    changes nothing: at most one send is scheduled. *)
Theorem onChange_same_versions_once initialSet elements elements' st :
  isRemoteUpdateRef st = false →
  idVersions elements' = idVersions elements →
  onChange initialSet elements' (onChange initialSet elements st)
  = onChange initialSet elements st.
Proof.
  intros Hflag Hiv. apply hash_of_idVersions in Hiv.
  unfold onChange. rewrite Hflag. destruct initialSet; cbn; [|by rewrite Hflag].
  destruct (String.eqb (getElementsHash elements) (lastElementsHashRef st)) eqn:Hh.
  - rewrite Hflag. cbn. by rewrite Hiv, Hh.
  - cbn. by rewrite Hiv, String.eqb_refl.
Qed.

Lemma onChange_same_versions_once_witness :
  onChange true [mkElement "X" 2 "moved"] (onChange true [X_v2] editing)
  = onChange true [X_v2] editing.
Proof. by apply (onChange_same_versions_once true [X_v2] [mkElement "X" 2 "moved"] editing). Defined.

Section runtime.
Variable JSON_parse : string → option Elements.
Variable trim : string → string.

(** A remote snapshot that the effect writes to the canvas is not sent
    back: the [onChange] that follows, whatever it carries, schedules nothing
    and sends nothing, and a later [onChange] with the merged scene is
    ignored as well. *)
Theorem remote_update_not_sent_back payload initialSet incoming st :
  JSON_parse (toParse trim payload) = Some incoming →
  getElementsHash incoming ≠ lastElementsHashRef st →
  let st1 := (subscriptionEffect JSON_parse trim true false payload initialSet st).1 in
  ∀ captured elements,
    let st2 := onChange captured elements st1 in
    Project.timers (refs st2) = Project.timers (refs st) ∧
    Project.pendingUpdateRef (refs st2) = Project.pendingUpdateRef (refs st) ∧
    Project.mutations (refs st2) = Project.mutations (refs st) ∧
    ∀ captured', onChange captured' (scene st1) st2 = st2.
Proof.
  intros Hparse Hhash st1 captured elements st2. subst st1 st2.
  unfold subscriptionEffect. cbn [andb negb]. rewrite Hparse.
  apply String.eqb_neq in Hhash. rewrite Hhash. cbn.
  split_and!; try done.
  intros captured'. unfold onChange. cbn.
  destruct captured'; cbn; [|done]. by rewrite String.eqb_refl.
Qed.

(** In [Project.tsx] an edit that has been handed to the mutation no longer
    counts as a local change: when the throttle timer has fired for the
    scene, the next remote snapshot with a different hash replaces the scene
    as a whole, also where the scene holds the higher version. *)
Theorem sent_edit_is_overwritten socketID payload initialSet incoming st :
  truthy socketID = true →
  JSON_parse (toParse trim payload) = Some incoming →
  getElementsHash incoming ≠ lastElementsHashRef st →
  let st1 := setRefs (Project.timerFired socketID (scene st) (refs st)) st in
  scene (subscriptionEffect JSON_parse trim true false payload initialSet st1).1
  = incoming.
Proof.
  intros Hs Hparse Hhash st1. subst st1.
  unfold subscriptionEffect. cbn [andb negb]. rewrite Hparse.
  apply String.eqb_neq in Hhash. cbn. rewrite Hhash. cbn.
  unfold Project.timerFired. rewrite Hs. cbn.
  apply merge_without_local_changes.
Qed.

End runtime.

Lemma remote_update_not_sent_back_witness :
  let st0 := onChange true [X_v2] editing in
  let st1 := (subscriptionEffect parseX1 (λ s, s) true false None true st0).1 in
  let st2 := onChange true [X_v3] st1 in
  Project.timers (refs st2) = Project.timers (refs st0) ∧
  Project.pendingUpdateRef (refs st2) = Project.pendingUpdateRef (refs st0) ∧
  Project.mutations (refs st2) = Project.mutations (refs st0) ∧
  ∀ captured', onChange captured' (scene st1) st2 = st2.
Proof.
  apply (remote_update_not_sent_back parseX1 (λ s, s) None true [X_v1]
           (onChange true [X_v2] editing) eq_refl ltac:(by vm_compute) true [X_v3]).
Defined.

Lemma sent_edit_is_overwritten_witness :
  scene (subscriptionEffect parseX1 (λ s, s) true false None true
           (setRefs (Project.timerFired (Some "10000001")
                       (scene (onChange true [X_v2] editing))
                       (refs (onChange true [X_v2] editing)))
              (onChange true [X_v2] editing))).1
  = [X_v1].
Proof.
  apply (sent_edit_is_overwritten parseX1 (λ s, s) (Some "10000001") None true [X_v1]
           (onChange true [X_v2] editing)); [done|done|].
  by vm_compute.
Defined.

End handlers.

(** * Throttling and retries *)

Section throttle.
Import EnhancedEffects.
Implicit Types (elements : Elements) (snapshots : list Elements) (ts : list timer).

Lemma clearTimeout_below h n ts :
  handlesBelow n ts → (n ≤ h)%nat → clearTimeout h ts = ts.
Proof.
  intros Hb Hh. unfold clearTimeout. apply filter_all.
  intros t Ht. specialize (Hb t Ht). lia.
Qed.

Lemma kept_below pending n ts : handlesBelow n ts → handlesBelow n (kept pending ts).
Proof.
  intros Hb t Ht. apply Hb. destruct pending; [|done].
  by apply list_elem_of_filter in Ht as [_ ?].
Qed.

Lemma kept_snoc_pending h n ts (t : timer) :
  handlesBelow n ts → (n ≤ h)%nat → handle t = h →
  kept (Some h) (ts ++ [t]) = ts.
Proof.
  intros Hb Hh Ht. unfold kept, clearTimeout.
  rewrite filter_app, filter_cons_False, filter_nil, app_nil_r by (by intros []).
  by eapply clearTimeout_below.
Qed.

Lemma burst_enhanced snapshots elements (st : ProjectEnhanced.State) :
  handlesBelow (ProjectEnhanced.nextHandle st) (ProjectEnhanced.timers st) →
  let st' := burst (snapshots ++ [elements]) st in
  ProjectEnhanced.timers st'
  = kept (ProjectEnhanced.pendingUpdateRef st) (ProjectEnhanced.timers st)
    ++ [mkTimer (ProjectEnhanced.nextHandle st + length snapshots)
          (ProjectEnhanced.getThrottleDelay (Z.of_nat (length elements)))
          (Throttled elements)] ∧
  ProjectEnhanced.pendingUpdateRef st'
  = Some (ProjectEnhanced.nextHandle st + length snapshots)%nat ∧
  ProjectEnhanced.nextHandle st'
  = S (ProjectEnhanced.nextHandle st + length snapshots) ∧
  ProjectEnhanced.mutations st' = ProjectEnhanced.mutations st ∧
  ProjectEnhanced.lastSyncedElementsRef st' = ProjectEnhanced.lastSyncedElementsRef st.
Proof.
  intros Hb. revert elements.
  induction snapshots as [|prev snapshots IH] using rev_ind; intros elements; cbn zeta.
  { cbn. rewrite Nat.add_0_r. split_and!; try done. }
  unfold burst. rewrite foldl_snoc. fold (burst (snapshots ++ [prev]) st).
  destruct (IH prev) as (Ht & Hp & Hn & Hm & Hl).
  unfold ProjectEnhanced.sendUpdate at 1 2 3 4 5.
  cbn [ProjectEnhanced.timers ProjectEnhanced.pendingUpdateRef
       ProjectEnhanced.nextHandle ProjectEnhanced.mutations
       ProjectEnhanced.lastSyncedElementsRef].
  rewrite Hp, Hn, Ht, Hm, Hl, length_app. cbn [length].
  change (clearTimeout ?h ?ts) with (kept (Some h) ts).
  rewrite (kept_snoc_pending _ (ProjectEnhanced.nextHandle st)); [| |lia|done].
  - replace (ProjectEnhanced.nextHandle st + (length snapshots + 1))%nat
      with (S (ProjectEnhanced.nextHandle st + length snapshots)) by lia.
    done.
  - by apply kept_below.
Qed.

Lemma burst_base snapshots elements (st : Project.State) :
  handlesBelow (Project.nextHandle st) (Project.timers st) →
  let st' := burstBase (snapshots ++ [elements]) st in
  Project.timers st'
  = kept (Project.pendingUpdateRef st) (Project.timers st)
    ++ [mkTimer (Project.nextHandle st + length snapshots) 100 (Throttled elements)] ∧
  Project.pendingUpdateRef st' = Some (Project.nextHandle st + length snapshots)%nat ∧
  Project.nextHandle st' = S (Project.nextHandle st + length snapshots) ∧
  Project.mutations st' = Project.mutations st ∧
  Project.lastSyncedElementsRef st' = Project.lastSyncedElementsRef st.
Proof.
  intros Hb. revert elements.
  induction snapshots as [|prev snapshots IH] using rev_ind; intros elements; cbn zeta.
  { cbn. rewrite Nat.add_0_r. split_and!; try done. }
  unfold burstBase. rewrite foldl_snoc. fold (burstBase (snapshots ++ [prev]) st).
  destruct (IH prev) as (Ht & Hp & Hn & Hm & Hl).
  unfold Project.sendUpdate at 1 2 3 4 5.
  cbn [Project.timers Project.pendingUpdateRef Project.nextHandle Project.mutations
       Project.lastSyncedElementsRef].
  rewrite Hp, Hn, Ht, Hm, Hl, length_app. cbn [length].
  change (clearTimeout ?h ?ts) with (kept (Some h) ts).
  rewrite (kept_snoc_pending _ (Project.nextHandle st)); [| |lia|done].
  - replace (Project.nextHandle st + (length snapshots + 1))%nat
      with (S (Project.nextHandle st + length snapshots)) by lia.
    done.
  - by apply kept_below.
Qed.

(** Edits in quick succession are coalesced, in both components: after a
    burst of [sendUpdate] calls with no timer firing in between, the timers
    that were not the pending send are untouched, exactly one throttle timer
    is pending, it carries the last snapshot, and nothing has been sent. *)
Theorem burst_sends_only_last snapshots elements :
  (∀ st : Project.State,
     handlesBelow (Project.nextHandle st) (Project.timers st) →
     let st' := burstBase (snapshots ++ [elements]) st in
     Project.timers st'
     = kept (Project.pendingUpdateRef st) (Project.timers st)
       ++ [mkTimer (Project.nextHandle st + length snapshots) 100
             (Throttled elements)] ∧
     Project.pendingUpdateRef st'
     = Some (Project.nextHandle st + length snapshots)%nat ∧
     Project.mutations st' = Project.mutations st) ∧
  (∀ st : ProjectEnhanced.State,
     handlesBelow (ProjectEnhanced.nextHandle st) (ProjectEnhanced.timers st) →
     let st' := burst (snapshots ++ [elements]) st in
     ProjectEnhanced.timers st'
     = kept (ProjectEnhanced.pendingUpdateRef st) (ProjectEnhanced.timers st)
       ++ [mkTimer (ProjectEnhanced.nextHandle st + length snapshots)
             (ProjectEnhanced.getThrottleDelay (Z.of_nat (length elements)))
             (Throttled elements)] ∧
     ProjectEnhanced.pendingUpdateRef st'
     = Some (ProjectEnhanced.nextHandle st + length snapshots)%nat ∧
     ProjectEnhanced.mutations st' = ProjectEnhanced.mutations st).
Proof.
  split; intros st Hb.
  - destruct (burst_base snapshots elements st Hb) as (? & ? & _ & ? & _). done.
  - destruct (burst_enhanced snapshots elements st Hb) as (? & ? & _ & ? & _). done.
Qed.

Lemma burst_sends_only_last_witness :
  ProjectEnhanced.timers (burst [[X_v1]; [X_v2]; [X_v3]] ProjectEnhanced.initial)
  = [mkTimer 2 100 (Throttled [X_v3])].
Proof.
  apply (burst_sends_only_last [[X_v1]; [X_v2]] [X_v3]).
  by intros t Ht%elem_of_nil.
Defined.

(** A retry that fires while a newer snapshot waits for its throttle timer
    cancels that timer and schedules the older snapshot in its place: the
    pending send is then the retried snapshot, and no timer with the handle
    of the newer send is left. *)
Theorem retry_replaces_newer_send socketID (r newer : timer) old
    (st : ProjectEnhanced.State) :
  run r = Retry old →
  handlesBelow (ProjectEnhanced.nextHandle st) (ProjectEnhanced.timers st) →
  newer ∈ ProjectEnhanced.timers st →
  ProjectEnhanced.pendingUpdateRef st = Some (handle newer) →
  let st' := ProjectEnhanced.fire socketID r st in
  ProjectEnhanced.pendingUpdateRef st' = Some (ProjectEnhanced.nextHandle st) ∧
  last (ProjectEnhanced.timers st')
  = Some (mkTimer (ProjectEnhanced.nextHandle st)
            (ProjectEnhanced.getThrottleDelay (Z.of_nat (length old)))
            (Throttled old)) ∧
  Forall (λ t, handle t ≠ handle newer) (ProjectEnhanced.timers st').
Proof.
  intros Hr Hb Hnewer Hp st'. subst st'. unfold ProjectEnhanced.fire. rewrite Hr.
  unfold ProjectEnhanced.sendUpdate. cbn. rewrite Hp. split_and!.
  - done.
  - by rewrite last_snoc.
  - apply Forall_app. split.
    + apply Forall_forall. intros t Ht.
      by apply list_elem_of_filter in Ht as [? _].
    + apply Forall_singleton. cbn. specialize (Hb newer Hnewer). lia.
Qed.

Lemma retry_replaces_newer_send_witness :
  let st' := ProjectEnhanced.fire (Some "10000001")
               (mkTimer 0 1000 (Retry [X_v1])) retryAndNewer in
  ProjectEnhanced.pendingUpdateRef st' = Some 2%nat ∧
  last (ProjectEnhanced.timers st') = Some (mkTimer 2 100 (Throttled [X_v1])) ∧
  Forall (λ t, handle t ≠ 1%nat) (ProjectEnhanced.timers st').
Proof.
  apply (retry_replaces_newer_send (Some "10000001") (mkTimer 0 1000 (Retry [X_v1]))
           (mkTimer 1 100 (Throttled [X_v2])) [X_v1] retryAndNewer).
  - done.
  - intros t Ht. vm_compute in Ht.
    apply elem_of_cons in Ht as [->|Ht]; [cbn; lia|].
    apply list_elem_of_singleton in Ht as ->. cbn. lia.
  - vm_compute. by right; left.
  - done.
Defined.

(** Any subscription data resets the retry count: whatever the count was,
    the next failed send is retried again, after 1000 ms. *)
Theorem subscription_data_resets_retries elements error (st : ProjectEnhanced.State) :
  let st1 := statusEffect false false true st in
  let st2 := ProjectEnhanced.mutateSettled elements (Rejected error) st1 in
  ProjectEnhanced.retryCountRef st1 = 0 ∧
  ProjectEnhanced.retryCountRef st2 = 1 ∧
  ProjectEnhanced.timers st2
  = ProjectEnhanced.timers st
    ++ [mkTimer (ProjectEnhanced.nextHandle st) 1000 (Retry elements)].
Proof. done. Qed.

(** The throttle delay lies between 100 and 500 ms and never shrinks when
    the scene grows. *)
Theorem getThrottleDelay_bounds (n m : Z) :
  100 ≤ ProjectEnhanced.getThrottleDelay n ≤ 500 ∧
  (n ≤ m → ProjectEnhanced.getThrottleDelay n ≤ ProjectEnhanced.getThrottleDelay m).
Proof.
  unfold ProjectEnhanced.getThrottleDelay.
  repeat match goal with |- context [?a <? ?b] => destruct (Z.ltb_spec a b) end; lia.
Qed.

End throttle.

(** * Further properties of the registry and of the broadcast *)

Section registry_more.
Import Server Channels.
Implicit Types (σ : State) (s : ProjectSubscriber) (l : list ProjectSubscriber).
Implicit Types (projectID socketID fromID : string) (project c : loc).

Lemma IntN_range draw : (IntN 90000000 draw < 90000000)%N.
Proof. unfold IntN. apply N.mod_lt. lia. Qed.

Lemma div10 (y : N) : (10 * (y `div` 10) ≤ y < 10 * (y `div` 10) + 10)%N.
Proof.
  pose proof (N.Div0.mul_div_le y 10).
  pose proof (N.mul_succ_div_gt y 10 ltac:(lia)). lia.
Qed.

Lemma pretty_8_digits (x : N) :
  (10000000 ≤ x < 100000000)%N → String.length (pretty x) = 8%nat.
Proof.
  intros Hx. unfold pretty, pretty_N. rewrite decide_False by lia.
  pose proof (div10 x) as H1.
  pose proof (div10 (x `div` 10)) as H2.
  pose proof (div10 (x `div` 10 `div` 10)) as H3.
  pose proof (div10 (x `div` 10 `div` 10 `div` 10)) as H4.
  pose proof (div10 (x `div` 10 `div` 10 `div` 10 `div` 10)) as H5.
  pose proof (div10 (x `div` 10 `div` 10 `div` 10 `div` 10 `div` 10)) as H6.
  pose proof (div10 (x `div` 10 `div` 10 `div` 10 `div` 10 `div` 10 `div` 10)) as H7.
  pose proof (div10 (x `div` 10 `div` 10 `div` 10 `div` 10 `div` 10 `div` 10
                       `div` 10)) as H8.
  do 8 (rewrite pretty_N_go_step by lia).
  match goal with |- context [pretty_N_go ?y _] => replace y with 0%N by lia end.
  by rewrite pretty_N_go_0.
Qed.

(** The token has exactly eight characters, and two draws yield the same
    token exactly when the generator returned the same number. *)
Theorem token_has_8_characters (d1 d2 : N) :
  String.length (generateRandom8DigitString d1) = 8%nat ∧
  (generateRandom8DigitString d1 = generateRandom8DigitString d2
   ↔ IntN 90000000 d1 = IntN 90000000 d2).
Proof.
  unfold generateRandom8DigitString. split.
  - apply pretty_8_digits. pose proof (IntN_range d1). lia.
  - split.
    + intros H%(inj pretty). lia.
    + by intros ->.
Qed.

Lemma findSubscriber_first socketID l1 s l2 i :
  (∀ x, x ∈ l1 → sockedID x ≠ socketID) → sockedID s = socketID →
  findSubscriber socketID (l1 ++ s :: l2) i = Some ((i + length l1)%nat, s).
Proof.
  revert i. induction l1 as [|x l1 IH]; intros i Hl1 Hs; cbn.
  - rewrite decide_True by done. by rewrite Nat.add_0_r.
  - rewrite decide_False by (apply Hl1; by left).
    rewrite IH; [|intros y Hy; apply Hl1; by right|done].
    do 2 f_equal. lia.
Qed.

Lemma remove_middle {A} (l1 l2 : list A) x :
  take (length l1) (l1 ++ x :: l2) ++ drop (S (length l1)) (l1 ++ x :: l2) = l1 ++ l2.
Proof.
  rewrite take_app_length. f_equal.
  rewrite (cons_middle x l1 l2), app_assoc.
  rewrite drop_app_length'; [done|]. rewrite length_app. cbn. lia.
Qed.

(** [unsubscribeFromProject] in closed form, when the token is registered. *)
Lemma unsubscribe_first_match projectID socketID σ l1 s l2 :
  subscribersOf σ projectID = l1 ++ s :: l2 →
  (∀ x, x ∈ l1 → sockedID x ≠ socketID) → sockedID s = socketID →
  unsubscribeFromProject projectID socketID σ
  = match chans σ !! channel s with
    | None => Panic (setSubscribers projectID (l1 ++ l2) σ) "close of nil channel"
    | Some ch =>
        if closed ch
        then Panic (setSubscribers projectID (l1 ++ l2) σ) "close of closed channel"
        else
          let σ1 := setChan (channel s) (mkChan (buffer ch) (capacity ch) true)
                      (setSubscribers projectID (l1 ++ l2) σ) in
          Done (if decide (l1 ++ l2 = []) then deleteSubscribers projectID σ1 else σ1)
    end.
Proof.
  intros Hl Hl1 Hs. unfold unsubscribeFromProject.
  rewrite Hl, findSubscriber_first by done. cbn [Nat.add].
  rewrite remove_middle. unfold close. cbn [chans setSubscribers].
  destruct (chans σ !! channel s) as [ch|]; [|done].
  destruct (closed ch); [done|]. cbn [andThen].
  unfold subscribersOf. cbn. rewrite lookup_insert_eq. cbn.
  destruct (l1 ++ l2); by cbn.
Qed.

(** Unsubscribing removes the first subscriber that has the token, and only
    that one: later subscribers with the same token stay registered, the
    order of the others is kept, and the removed subscriber's channel is the
    only one closed. *)
Theorem unsubscribe_removes_first_match projectID socketID σ l1 s l2 ch :
  subscribersOf σ projectID = l1 ++ s :: l2 →
  (∀ x, x ∈ l1 → sockedID x ≠ socketID) → sockedID s = socketID →
  chans σ !! channel s = Some ch → closed ch = false →
  ∃ σ', unsubscribeFromProject projectID socketID σ = Done σ' ∧
        subscribersOf σ' projectID = l1 ++ l2 ∧
        (∀ q, q ≠ projectID → projectSubscribers σ' !! q = projectSubscribers σ !! q) ∧
        chans σ' = <[channel s := mkChan (buffer ch) (capacity ch) true]> (chans σ).
Proof.
  intros Hl Hl1 Hs Hch Hopen.
  rewrite (unsubscribe_first_match _ _ _ l1 s l2) by done.
  rewrite Hch, Hopen. cbn zeta. eexists. split; [done|].
  case_decide as Hempty.
  - rewrite Hempty. unfold subscribersOf. cbn. rewrite lookup_delete_eq. split_and!; try done.
    intros q Hq. by rewrite lookup_delete_ne, lookup_insert_ne.
  - unfold subscribersOf. cbn. rewrite lookup_insert_eq. split_and!; try done.
    intros q Hq. by rewrite lookup_insert_ne.
Qed.

Lemma unsubscribe_removes_first_match_witness :
  ∃ σ', unsubscribeFromProject "p" tokenB threeSubscribers = Done σ' ∧
        subscribersOf σ' "p"
        = [mkProjectSubscriber tokenA 0] ++ [mkProjectSubscriber tokenC 2] ∧
        (∀ q, q ≠ "p" → projectSubscribers σ' !! q
                        = projectSubscribers threeSubscribers !! q) ∧
        chans σ' = <[1%nat := mkChan [] 1 true]> (chans threeSubscribers).
Proof.
  apply (unsubscribe_removes_first_match "p" tokenB threeSubscribers
           [mkProjectSubscriber tokenA 0] (mkProjectSubscriber tokenB 1)
           [mkProjectSubscriber tokenC 2] (mkChan [] 1 false)); try done.
  intros x Hx%list_elem_of_singleton. by subst.
Defined.

(** Subscribing and then unsubscribing with the returned token is a round
    trip on the registry, provided no subscriber of the document already has
    that token and the channel is open: the map is as before, and the
    channel is closed. *)
Theorem subscribe_unsubscribe_round_trip projectID c draw σ ch :
  registryInv σ →
  (∀ s, s ∈ subscribersOf σ projectID →
        sockedID s ≠ generateRandom8DigitString draw) →
  chans σ !! c = Some ch → closed ch = false →
  ∃ σ', unsubscribeFromProject projectID (subscribeToProject projectID c draw σ).2
          (subscribeToProject projectID c draw σ).1 = Done σ' ∧
        projectSubscribers σ' = projectSubscribers σ ∧
        chans σ' = <[c := mkChan (buffer ch) (capacity ch) true]> (chans σ).
Proof.
  intros Hinv Hfresh Hch Hopen.
  rewrite (unsubscribe_first_match _ _ _ (subscribersOf σ projectID)
             {| sockedID := generateRandom8DigitString draw; channel := c |} []);
    [| |done|done].
  2: { unfold subscribersOf at 1, subscribeToProject, setSubscribers.
       cbn [fst projectSubscribers]. by rewrite lookup_insert_eq. }
  unfold subscribeToProject.
  cbn [fst chans setSubscribers setChan channel]. rewrite Hch, Hopen.
  cbn zeta. eexists. split; [done|].
  rewrite app_nil_r. case_decide as Hempty.
  - cbn. split; [|done].
    rewrite delete_insert_eq, delete_insert_eq. apply delete_id.
    destruct (projectSubscribers σ !! projectID) as [l|] eqn:Hl; [|done].
    rewrite (subscribersOf_Some _ _ _ Hl) in Hempty. subst. by destruct (Hinv _ _ Hl).
  - cbn. split; [|done].
    rewrite !insert_insert_eq. apply insert_id. by apply subscribersOf_nonempty.
Qed.

Lemma subscribe_unsubscribe_round_trip_witness :
  ∃ σ', unsubscribeFromProject "p" (subscribeToProject "p" 5 3 spareChannel).2
          (subscribeToProject "p" 5 3 spareChannel).1 = Done σ' ∧
        projectSubscribers σ' = projectSubscribers spareChannel ∧
        chans σ' = <[5%nat := mkChan [] 1 true]> (chans spareChannel).
Proof.
  apply (subscribe_unsubscribe_round_trip "p" 5 3 spareChannel (mkChan [] 1 false)).
  - intros q l. vm_compute. intros H.
    repeat (case_match; simplify_eq); done.
  - intros s Hs. vm_compute in Hs.
    apply elem_of_cons in Hs as [->|Hs]; [done|].
    apply list_elem_of_singleton in Hs as ->. done.
  - reflexivity.
  - reflexivity.
Defined.

(** Unsubscribing a subscriber whose channel is already closed panics in
    [close], after the subscriber has been taken out of the list and before
    the clean-up of empty lists: when it was the only subscriber, the key
    stays bound to the empty list. *)
Theorem unsubscribe_closed_channel_panics projectID socketID σ l1 s l2 ch :
  subscribersOf σ projectID = l1 ++ s :: l2 →
  (∀ x, x ∈ l1 → sockedID x ≠ socketID) → sockedID s = socketID →
  chans σ !! channel s = Some ch → closed ch = true →
  ∃ σ', unsubscribeFromProject projectID socketID σ
        = Panic σ' "close of closed channel" ∧
        projectSubscribers σ' !! projectID = Some (l1 ++ l2) ∧
        chans σ' = chans σ.
Proof.
  intros Hl Hl1 Hs Hch Hclosed.
  rewrite (unsubscribe_first_match _ _ _ l1 s l2) by done.
  rewrite Hch, Hclosed. eexists. split; [done|]. cbn.
  by rewrite lookup_insert_eq.
Qed.

Lemma unsubscribe_closed_channel_panics_witness :
  ∃ σ', unsubscribeFromProject "p" tokenB closedSubscriber
        = Panic σ' "close of closed channel" ∧
        projectSubscribers σ' !! "p"
        = Some ([mkProjectSubscriber tokenA 0] ++ [mkProjectSubscriber tokenC 2]) ∧
        chans σ' = chans closedSubscriber.
Proof.
  apply (unsubscribe_closed_channel_panics "p" tokenB closedSubscriber
           [mkProjectSubscriber tokenA 0] (mkProjectSubscriber tokenB 1)
           [mkProjectSubscriber tokenC 2] (mkChan [] 1 true)); try done.
  intros x Hx%list_elem_of_singleton. by subst.
Defined.

Lemma stateOf_notifyAll_cons project fromID s l σ :
  stateOf (notifyAll project fromID (s :: l) σ)
  = match notify project fromID s σ with
    | Done σ1 => stateOf (notifyAll project fromID l σ1)
    | Panic σ1 _ => σ1
    end.
Proof. rewrite notifyAll_cons. by destruct (notify project fromID s σ). Qed.

(** A relation that every loop iteration respects holds across the whole
    broadcast, completed or not. *)
Lemma notifyAll_rel (R : State → State → Prop) project fromID :
  (∀ σ, R σ σ) → (∀ σ1 σ2 σ3, R σ1 σ2 → R σ2 σ3 → R σ1 σ3) →
  (∀ s σ, R σ (stateOf (notify project fromID s σ))) →
  ∀ l σ, R σ (stateOf (notifyAll project fromID l σ)).
Proof.
  intros Hrefl Htrans Hstep l. induction l as [|s l IH]; intros σ; [apply Hrefl|].
  rewrite stateOf_notifyAll_cons. specialize (Hstep s σ).
  destruct (notify project fromID s σ) as [σ1|σ1 ?]; [|done].
  eapply Htrans; [exact Hstep|apply IH].
Qed.

Lemma broadcast_rel (R : State → State → Prop) projectID project fromID :
  (∀ σ, R σ σ) → (∀ σ1 σ2 σ3, R σ1 σ2 → R σ2 σ3 → R σ1 σ3) →
  (∀ s σ, R σ (stateOf (notify project fromID s σ))) →
  ∀ σ, R σ (stateOf (broadcastProjectUpdate projectID project fromID σ)).
Proof.
  intros Hrefl Htrans Hstep σ. unfold broadcastProjectUpdate.
  destruct (projectSubscribers σ !! projectID); [by apply notifyAll_rel|apply Hrefl].
Qed.

Lemma grown_refl ch : grown ch ch.
Proof. by split_and!. Qed.

Lemma grown_trans ch1 ch2 ch3 : grown ch1 ch2 → grown ch2 ch3 → grown ch1 ch3.
Proof.
  intros (? & ? & ?) (? & ? & ?). split_and!; [congruence..|by etrans].
Qed.

Lemma broadcastFrame_refl project σ : broadcastFrame project σ σ.
Proof.
  split_and!; [done| |done|].
  - intros c. destruct (chans σ !! c); constructor. apply grown_refl.
  - destruct (projects σ !! project); by constructor.
Qed.

Lemma broadcastFrame_trans project σ1 σ2 σ3 :
  broadcastFrame project σ1 σ2 → broadcastFrame project σ2 σ3 →
  broadcastFrame project σ1 σ3.
Proof.
  intros (Hr1 & Hc1 & Ho1 & Hp1) (Hr2 & Hc2 & Ho2 & Hp2). split_and!.
  - congruence.
  - intros c. specialize (Hc1 c). specialize (Hc2 c).
    destruct Hc1; inversion Hc2; subst; constructor. by eapply grown_trans.
  - intros l Hl. by rewrite Ho2, Ho1.
  - destruct Hp1; inversion Hp2; subst; constructor.
    unfold restamped in *. naive_solver congruence.
Qed.

Lemma notify_frame project fromID s σ :
  broadcastFrame project σ (stateOf (notify project fromID s σ)).
Proof.
  unfold notify. case_decide; [apply broadcastFrame_refl|].
  destruct (projects σ !! project) as [p|] eqn:Hp; [|apply broadcastFrame_refl].
  assert (∀ chans', (∀ c, option_Forall2 grown (chans σ !! c) (chans' !! c)) →
           ∀ sent',
           broadcastFrame project σ
             {| projectSubscribers := projectSubscribers σ; chans := chans';
                projects := <[project := {| ID := ID p; Elements := Elements p;
                                            SocketID := sockedID s |}]> (projects σ);
                sent := sent' |}) as Hframe.
  { intros chans' Hc sent'. split_and!; cbn; [done|done| |].
    - intros l Hl. by rewrite lookup_insert_ne.
    - rewrite Hp, lookup_insert_eq. by constructor. }
  assert (∀ c, option_Forall2 grown (chans σ !! c) (chans σ !! c)) as Hsame.
  { intros c. destruct (chans σ !! c); constructor. apply grown_refl. }
  cbn [chans]. destruct (chans σ !! channel s) as [ch|] eqn:Hch; cbn [stateOf].
  2: { by apply Hframe. }
  unfold selectSend. destruct (closed ch) eqn:Hclosed; cbn [stateOf].
  { by apply Hframe. }
  destruct (length (buffer ch) <? capacity ch)%nat; cbn [stateOf]; [|by apply Hframe].
  apply Hframe. intros c. destruct (decide (c = channel s)) as [->|Hne].
  - rewrite Hch, lookup_insert_eq. constructor. split_and!; cbn; [done|done|].
    by apply prefix_app_r.
  - rewrite lookup_insert_ne by done. apply Hsame.
Qed.

(** What a broadcast never does, in any state and whether or not it
    completes: it leaves the registry as it is; it creates, closes and
    resizes no channel and removes nothing from a buffer (the old content
    stays at the front); it touches no record other than the update, and of
    the update only [SocketID]. *)
Theorem broadcast_frame projectID project fromID σ :
  broadcastFrame project σ
    (stateOf (broadcastProjectUpdate projectID project fromID σ)).
Proof.
  apply (broadcast_rel (broadcastFrame project)).
  - apply broadcastFrame_refl.
  - apply broadcastFrame_trans.
  - apply notify_frame.
Qed.

Lemma notify_withinCapacity project fromID s σ :
  withinCapacity σ → withinCapacity (stateOf (notify project fromID s σ)).
Proof.
  intros Hcap. unfold notify. case_decide; [done|].
  destruct (projects σ !! project) as [p|]; [|done]. cbn [chans].
  destruct (chans σ !! channel s) as [ch|] eqn:Hch; [|done].
  unfold selectSend. destruct (closed ch); [done|].
  destruct (length (buffer ch) <? capacity ch)%nat eqn:Hroom; [|done].
  apply Nat.ltb_lt in Hroom.
  intros c ch'. cbn. rewrite lookup_insert. case_decide.
  - intros [= <-]. cbn. rewrite length_app. cbn. lia.
  - apply Hcap.
Qed.

(** Buffers stay bounded: if no channel holds more than its capacity before
    a broadcast, none does after it. *)
Theorem broadcast_within_capacity projectID project fromID σ :
  withinCapacity σ →
  withinCapacity (stateOf (broadcastProjectUpdate projectID project fromID σ)).
Proof.
  apply (broadcast_rel (λ σ1 σ2, withinCapacity σ1 → withinCapacity σ2)).
  - done.
  - intros σ1 σ2 σ3 H12 H23 H1. by apply H23, H12.
  - apply notify_withinCapacity.
Qed.

Lemma broadcast_within_capacity_witness :
  chans thirdIsFull !! 2%nat = Some (mkChan [7%nat] 1 false) ∧
  withinCapacity (stateOf (broadcastProjectUpdate "p" 0 tokenA thirdIsFull)).
Proof.
  split; [reflexivity|].
  apply (broadcast_within_capacity "p" 0 tokenA thirdIsFull).
  intros c ch. vm_compute. intros H.
  repeat (case_match; simplify_eq); cbn; lia.
Defined.

Lemma notifyAll_stamp project fromID l σ σ' p :
  notifyAll project fromID l σ = Done σ' →
  projects σ !! project = Some p →
  projects σ' !! project
  = Some {| ID := ID p; Elements := Elements p;
            SocketID := match last (recipients fromID l) with
                        | Some s => sockedID s
                        | None => SocketID p
                        end |}.
Proof.
  revert σ p. induction l as [|s l IH]; intros σ p Hall Hp.
  { injection Hall as <-. rewrite Hp. by destruct p. }
  rewrite notifyAll_cons in Hall.
  destruct (notify project fromID s σ) as [σ1|] eqn:Hn; [|done]. cbn [andThen] in Hall.
  unfold recipients. unfold notify in Hn. case_decide as Hfrom.
  - injection Hn as <-. rewrite filter_cons_False by (by intros ?). by apply (IH σ).
  - rewrite filter_cons_True by done. rewrite Hp in Hn.
    assert (projects σ1 !! project
            = Some {| ID := ID p; Elements := Elements p; SocketID := sockedID s |})
      as Hp1.
    { cbn [chans] in Hn. destruct (chans σ !! channel s) as [ch|].
      - destruct (selectSend project ch); [| |done];
          injection Hn as <-; cbn; by rewrite lookup_insert_eq.
      - injection Hn as <-. cbn. by rewrite lookup_insert_eq. }
    rewrite (IH _ _ Hall Hp1). cbn. fold (recipients fromID l).
    destruct (recipients fromID l) as [|x r] eqn:Hr; [done|].
    rewrite last_cons_cons, (last_cons x r). by destruct (last r).
Qed.

(** All recipients of a broadcast are handed the same record, and when the
    call has returned that record carries the token of the last subscriber
    the loop wrote to (the last one whose token is not the origin), whether
    or not that subscriber's channel took the update. *)
Theorem broadcast_leaves_last_token projectID project fromID σ σ' subscribers p s :
  projectSubscribers σ !! projectID = Some subscribers →
  projects σ !! project = Some p →
  last (recipients fromID subscribers) = Some s →
  broadcastProjectUpdate projectID project fromID σ = Done σ' →
  projects σ' !! project
  = Some {| ID := ID p; Elements := Elements p; SocketID := sockedID s |} ∧
  Forall (λ d, update d = project) (newlySent projectID project fromID σ).
Proof.
  intros Hl Hp Hlast Hdone. split.
  - unfold broadcastProjectUpdate in Hdone. rewrite Hl in Hdone.
    rewrite (notifyAll_stamp _ _ _ _ _ _ Hdone Hp). by rewrite Hlast.
  - eapply Forall_impl; [apply newlySent_addressedTo|]. by intros d (_ & _ & ? & _).
Qed.

Lemma broadcast_leaves_last_token_witness :
  projects (stateOf (broadcastProjectUpdate "p" 0 tokenA thirdIsFull)) !! 0%nat
  = Some {| ID := "p"; Elements := "[]"; SocketID := tokenC |} ∧
  Forall (λ d, update d = 0%nat) (newlySent "p" 0 tokenA thirdIsFull).
Proof.
  apply (broadcast_leaves_last_token "p" 0 tokenA thirdIsFull _
           [mkProjectSubscriber tokenA 0; mkProjectSubscriber tokenB 1;
            mkProjectSubscriber tokenC 2]
           (mkProjectSubscription "p" "[]" "") (mkProjectSubscriber tokenC 2));
    reflexivity.
Defined.

(** Drop-on-full keeps the older update: with the channels as for a
    completed broadcast, a subscriber whose buffer is full keeps exactly what
    it had, and the new update is not queued for it. *)
Theorem full_channel_keeps_old_update projectID project fromID σ :
  NoDup (channel <$> subscribersOf σ projectID) →
  (∀ s ch, s ∈ subscribersOf σ projectID → sockedID s ≠ fromID →
           chans σ !! channel s = Some ch → closed ch = false) →
  is_Some (projects σ !! project) →
  ∃ σ', broadcastProjectUpdate projectID project fromID σ = Done σ' ∧
    ∀ s ch, s ∈ subscribersOf σ projectID → chans σ !! channel s = Some ch →
            (capacity ch ≤ length (buffer ch))%nat →
            chans σ' !! channel s = Some ch.
Proof.
  unfold broadcastProjectUpdate, subscribersOf.
  destruct (projectSubscribers σ !! projectID) as [l|]; cbn [default].
  2: { intros _ _ _. exists σ. split; [done|]. intros s ch Hs. by apply elem_of_nil in Hs. }
  intros Hnd Hopen Hp.
  destruct (notifyAll_open project fromID l σ) as (σ' & Hall & _ & _ & _ & Hin);
    [done..|].
  exists σ'. split; [done|]. intros s ch Hs Hch Hfull.
  rewrite (Hin s Hs), Hch. unfold afterNotify. cbn -[Nat.ltb].
  case_decide; [done|].
  by rewrite (proj2 (Nat.ltb_ge _ _) Hfull).
Qed.

Lemma full_channel_keeps_old_update_witness :
  ∃ σ', broadcastProjectUpdate "p" 0 tokenA thirdIsFull = Done σ' ∧
    ∀ s ch, s ∈ subscribersOf thirdIsFull "p" →
            chans thirdIsFull !! channel s = Some ch →
            (capacity ch ≤ length (buffer ch))%nat →
            chans σ' !! channel s = Some ch.
Proof.
  apply (full_channel_keeps_old_update "p" 0 tokenA thirdIsFull).
  - vm_compute. repeat (apply NoDup_cons; split; [set_solver|]). apply NoDup_nil_2.
  - intros s ch Hs _. vm_compute in Hs.
    repeat (apply elem_of_cons in Hs as [->|Hs]); [..|by apply elem_of_nil in Hs];
      vm_compute; by intros [= <-].
  - by eexists.
Defined.

Example full_channel_run :
  ∃ σ', broadcastProjectUpdate "p" 0 tokenA thirdIsFull = Done σ' ∧
        buffer <$> chans σ' !! 1%nat = Some [0%nat] ∧
        buffer <$> chans σ' !! 2%nat = Some [7%nat].
Proof. eexists. split; [reflexivity|]. by vm_compute. Qed.

End registry_more.

(** * The version rule of the merge *)

Section merge_versions.
Implicit Types (current incoming lastSynced : Elements).
Implicit Types (el c m : OrderedExcalidrawElement).

(** [C8], as the code has it. Let [c] be an element of [current] (IDs unique
    within [current]) and [m] an element of the merge result with the same
    ID. The result does not regress the version, [version c ≤ version m],
    whenever the ID is absent from [incoming], or [lastSynced] holds the ID
    at a strictly lower version than [c] (a local edit since the last sync),
    or no copy of the ID in [incoming] is older than [c]. When the ID is in
    [incoming] and there is no such local edit, [m] is incoming's copy,
    whatever its version. *)
Theorem merge_version_rule current incoming lastSynced c m :
  NoDup (id <$> current) →
  c ∈ current →
  m ∈ mergeElements current incoming lastSynced →
  id m = id c →
  ((id c ∉ (id <$> incoming) ∨
    (∃ l, get lastSynced (id c) = Some l ∧ version l < version c) ∨
    (∀ el, el ∈ incoming → id el = id c → version c ≤ version el)) →
   version c ≤ version m) ∧
  (id c ∈ (id <$> incoming) →
   ¬ (∃ l, get lastSynced (id c) = Some l ∧ version l < version c) →
   m ∈ incoming).
Proof.
  intros Hnd Hc Hm Hid.
  assert (get current (id c) = Some c) as Hgc by (by apply get_NoDup).
  destruct (decide (lastSynced = [])) as [->|Hne].
  { rewrite mergeElements_first_sync in Hm. split; [|done].
    intros [Hni|[(l & Hl & _)|Hall]].
    - exfalso. apply Hni. rewrite <- Hid. by apply list_elem_of_fmap_2.
    - unfold get in Hl. cbn in Hl. by rewrite lookup_empty in Hl.
    - by apply Hall. }
  rewrite mergeElements_unfold in Hm by done.
  apply elem_of_app in Hm as [Hm|Hm].
  - apply list_elem_of_fmap in Hm as (el & -> & Hel).
    rewrite pick_id in Hid. split.
    + intros [Hni|[(l & Hl & Hlt)|Hall]].
      * exfalso. apply Hni. rewrite <- Hid. by apply list_elem_of_fmap_2.
      * unfold pick. rewrite Hid, Hl, Hgc.
        destruct (version c >=? version el) eqn:Hge;
          rewrite ?andb_true_r, ?andb_false_r; [case_match; [done|lia]|lia].
      * specialize (Hall el Hel Hid).
        destruct (pick_elem_of current lastSynced el) as [->|Hin]; [done|].
        pose proof (pick_version current lastSynced el). lia.
    + intros _ Hno. unfold pick. rewrite Hid, Hgc.
      destruct (get lastSynced (id c)) as [l|] eqn:Hl; [|done].
      assert (¬ version l < version c) as Hnlt by (intros Hlt; apply Hno; eauto).
      by assert (version c >? version l = false) as -> by lia.
  - apply list_elem_of_filter in Hm as [[Hni _] Hm].
    assert (m = c) as ->.
    { apply (get_NoDup current) in Hm; [|done]. rewrite Hid, Hgc in Hm. by injection Hm. }
    split; [done|]. by intros Hin.
Qed.

Lemma merge_version_rule_witness :
  version X_v1 ≤ version X_v2 ∧ X_v2 ∈ [X_v2].
Proof.
  destruct (merge_version_rule [X_v1] [X_v2] [X_v1] X_v1 X_v2) as [Hge Hin].
  - apply NoDup_singleton.
  - by left.
  - by left.
  - done.
  - split.
    + apply Hge. right; right. intros el Hel%list_elem_of_singleton _. subst. cbn. lia.
    + apply Hin; [by left|]. intros (l & Hl & Hlt).
      vm_compute in Hl. injection Hl as <-. cbn in Hlt. lia.
Defined.

End merge_versions.

(** ** Server side: what a broadcast puts on the channels *)

Section broadcast_records.
Import Server.
Implicit Types (σ : State) (s subscriber : ProjectSubscriber).
Implicit Types (subscribers : list ProjectSubscriber) (project : loc).
Implicit Types (projectID fromID socketID : string).

Lemma notifyAll_app project fromID l1 l2 σ :
  notifyAll project fromID (l1 ++ l2) σ
  = andThen (notifyAll project fromID l1 σ) (notifyAll project fromID l2).
Proof.
  revert σ. induction l1 as [|s l1 IH]; intros σ; [done|].
  rewrite <- app_comm_cons, !notifyAll_cons.
  destruct (notify project fromID s σ) as [σ1|σ1 reason]; cbn [andThen]; [apply IH|done].
Qed.

(** One turn of the loop changes the subscriber's channel only by the send
    case of the [select], and then the record has just been given the
    subscriber's token. *)
Lemma notify_send_inv project fromID s σ ch :
  chans σ !! channel s = Some ch →
  chans (stateOf (notify project fromID s σ)) !! channel s ≠ Some ch →
  sockedID s ≠ fromID ∧
  ∃ p0,
    projects σ !! project = Some p0 ∧
    notify project fromID s σ
    = Done {| projectSubscribers := projectSubscribers σ;
              chans := <[channel s :=
                           {| buffer := buffer ch ++ [project];
                              capacity := capacity ch; closed := false |}]> (chans σ);
              projects := <[project :=
                              {| ID := ID p0; Elements := Elements p0;
                                 SocketID := sockedID s |}]> (projects σ);
              sent := sent σ ++
                [mkDelivery s project
                   {| ID := ID p0; Elements := Elements p0;
                      SocketID := sockedID s |}] |}.
Proof.
  intros Hch. unfold notify. case_decide as Hfrom; [done|].
  destruct (projects σ !! project) as [p0|]; [|done].
  cbn [chans]. rewrite Hch. unfold selectSend.
  destruct (closed ch); [done|].
  destruct (length (buffer ch) <? capacity ch)%nat; [|done].
  intros _. split; [done|]. by exists p0.
Qed.

(** The second subscriber is sent the update for the first one's edit, and
    the record on its channel holds the second subscriber's token, which is
    not the origin token. *)
Lemma record_sent_holds_recipient_token_not_origin :
  ∃ σ', broadcastProjectUpdate "p" 0 tokenA twoSubscribers = Done σ' ∧
        subscribersOf twoSubscribers "p"
        = [mkProjectSubscriber tokenA 0; mkProjectSubscriber tokenB 1] ∧
        chans σ' !! 1%nat = Some (mkChan [0%nat] 1 false) ∧
        projects σ' !! 0%nat = Some (mkProjectSubscription "p" "[]" tokenB) ∧
        tokenB ≠ tokenA.
Proof. eexists. split; [reflexivity|]. by vm_compute. Qed.

(** [C3], as the code has it. Take any turn of the loop of a broadcast: the
    subscribers before [s] have been served, leaving the state [σ0], and the
    turn for [s] leaves [σ1]. If that turn changed the channel of [s], then
    it returned, [s] does not have the origin token, the update was appended
    to the channel, and the record the channel now points to holds the token
    of [s] in its socket-ID field, with the document ID and the elements it
    had before; the broadcast goes on with the subscribers after [s]. *)
Theorem sent_record_holds_recipient_token
    projectID project fromID σ l1 s l2 σ0 ch :
  projectSubscribers σ !! projectID = Some (l1 ++ s :: l2) →
  notifyAll project fromID l1 σ = Done σ0 →
  chans σ0 !! channel s = Some ch →
  chans (stateOf (notify project fromID s σ0)) !! channel s ≠ Some ch →
  sockedID s ≠ fromID ∧
  ∃ σ1 p0,
    notify project fromID s σ0 = Done σ1 ∧
    projects σ0 !! project = Some p0 ∧
    projects σ1 !! project
    = Some {| ID := ID p0; Elements := Elements p0; SocketID := sockedID s |} ∧
    chans σ1 !! channel s
    = Some {| buffer := buffer ch ++ [project]; capacity := capacity ch;
              closed := false |} ∧
    sent σ1 = sent σ0 ++
      [mkDelivery s project
         {| ID := ID p0; Elements := Elements p0; SocketID := sockedID s |}] ∧
    broadcastProjectUpdate projectID project fromID σ
    = notifyAll project fromID l2 σ1.
Proof.
  intros Hsubs Hl1 Hch Hchanged.
  destruct (notify_send_inv project fromID s σ0 ch Hch Hchanged)
    as (Hne & p0 & Hp0 & Hn).
  split; [done|]. eexists _, p0. split; [exact Hn|].
  cbn [projects chans sent]. rewrite !lookup_insert_eq.
  split_and!; try done.
  unfold broadcastProjectUpdate. rewrite Hsubs.
  rewrite notifyAll_app, Hl1. cbn [andThen]. by rewrite notifyAll_cons, Hn.
Qed.

Lemma sent_record_holds_recipient_token_witness :
  tokenB ≠ tokenA ∧
  ∃ σ1 p0,
    notify 0 tokenA (mkProjectSubscriber tokenB 1) twoSubscribers = Done σ1 ∧
    projects twoSubscribers !! 0%nat = Some p0 ∧
    projects σ1 !! 0%nat
    = Some {| ID := ID p0; Elements := Elements p0; SocketID := tokenB |} ∧
    chans σ1 !! 1%nat = Some (mkChan [0%nat] 1 false) ∧
    sent σ1 = sent twoSubscribers ++
      [mkDelivery (mkProjectSubscriber tokenB 1) 0
         {| ID := ID p0; Elements := Elements p0; SocketID := tokenB |}] ∧
    broadcastProjectUpdate "p" 0 tokenA twoSubscribers = notifyAll 0 tokenA [] σ1.
Proof.
  apply (sent_record_holds_recipient_token "p" 0 tokenA twoSubscribers
           [mkProjectSubscriber tokenA 0] (mkProjectSubscriber tokenB 1) []
           twoSubscribers (mkChan [] 1 false)).
  - reflexivity.
  - reflexivity.
  - reflexivity.
  - vm_compute. intros [=].
Defined.

(** [C2] With the channel of the second subscriber closed, a broadcast from
    the first panics on the send to the second. The third subscriber is
    registered for the document, does not have the origin token and its
    channel can accept a value, yet nothing is sent to it: the call performs
    no send at all and leaves the third channel empty. The origin's channel
    is left as it was. *)
Theorem broadcast_misses_subscriber_after_closed_channel :
  ∃ σ', broadcastProjectUpdate "p" 0 tokenA closedSubscriber
        = Panic σ' "send on closed channel" ∧
        subscribersOf closedSubscriber "p"
        = [mkProjectSubscriber tokenA 0; mkProjectSubscriber tokenB 1;
           mkProjectSubscriber tokenC 2] ∧
        tokenC ≠ tokenA ∧
        (∃ ch, chans closedSubscriber !! 2%nat = Some ch ∧ canAccept ch) ∧
        is_Some (projects closedSubscriber !! 0%nat) ∧
        newlySent "p" 0 tokenA closedSubscriber = [] ∧
        chans σ' !! 2%nat = chans closedSubscriber !! 2%nat ∧
        chans σ' !! 0%nat = chans closedSubscriber !! 0%nat.
Proof.
  eexists. split; [reflexivity|]. split_and!.
  - reflexivity.
  - vm_compute. intros [=].
  - exists (mkChan [] 1 false). split; [reflexivity|]. split; [done|]. cbn. lia.
  - by eexists.
  - reflexivity.
  - reflexivity.
  - reflexivity.
Qed.

End broadcast_records.
